(** * gen_frames: the rotating wireframe cube, rendered as text frames

    A shallow embedding of [scripts/gen_frames.py] and the properties of
    its rendering pipeline: rotation, projection, back-face culling, line
    rasterisation and the frame driver.

    Python's [float] is IEEE 754 binary64, which is Rocq's primitive
    [float]; Python's [int] is unbounded, hence [Z].  Operations that can
    raise in Python ([round] of a NaN or an infinity, list indexing out of
    range, [math.sin] of an infinity, conversion of a huge [int]) return
    [option], with [None] standing for the raised exception. *)

From Stdlib Require Import ZArith Floats Ascii String DecimalString DecimalZ DecimalPos Lia.
From stdpp Require Import gmap strings list.

#[local] Set Warnings "-inexact-float,-clear-no-such-hyp".
#[local] Open Scope Z_scope.

(** ** Python numerics on binary64 *)

Module PyNum.

(** An [int] as an (unnormalised) binary float with exponent 0. *)
Definition Z2SF (z : Z) : spec_float :=
  match z with
  | Z0 => S754_zero false
  | Zpos p => S754_finite false p 0
  | Zneg p => S754_finite true p 0
  end.

(** [float(z)]: the nearest binary64, ties to even; [OverflowError]
    when [z] is too large. *)
Definition float_of_int (z : Z) : option float :=
  let f := SF2Prim (binary_normalize prec emax z 0 false) in
  if is_infinity f then None else Some f.

(** [a / b] on two [int]s: the correctly rounded quotient;
    [ZeroDivisionError] when [b = 0], [OverflowError] when the quotient is
    too large for a float. *)
Definition int_truediv (a b : Z) : option float :=
  if b =? 0 then None
  else
    let q := SF2Prim (SFdiv prec emax (Z2SF a) (Z2SF b)) in
    if is_infinity q then None else Some q.

(** The integer nearest to [m * 2^e], ties to even. *)
Definition round_half_even (m : positive) (e : Z) : Z :=
  match e with
  | Zneg p =>
      let d := Z.pow_pos 2 p in
      let q := Z.pos m / d in
      let r := Z.pos m mod d in
      match 2 * r ?= d with
      | Lt => q
      | Gt => q + 1
      | Eq => if Z.even q then q else q + 1
      end
  | _ => Z.pos m * 2 ^ e
  end.

(** [round(x)] with one argument: an [int], ties to even; [ValueError]
    on NaN and [OverflowError] on an infinity. *)
Definition py_round (x : float) : option Z :=
  match Prim2SF x with
  | S754_zero _ => Some 0
  | S754_finite s m e => Some (cond_Zopp s (round_half_even m e))
  | S754_infinity _ | S754_nan => None
  end.

(** [seq[i]] on a sequence of length [n]: negative indices count from
    the end, anything else out of range is an [IndexError]. *)
Definition py_index (n : nat) (i : Z) : option nat :=
  if (0 <=? i) && (i <? Z.of_nat n) then Some (Z.to_nat i)
  else if (- Z.of_nat n <=? i) && (i <? 0) then Some (Z.to_nat (i + Z.of_nat n))
  else None.

(** [str(n)] for an [int]. *)
Definition py_str (n : Z) : string := NilZero.string_of_int (Z.to_int n).

(** [for x in xs: s = body(s, x)], stopping at the first exception. *)
Fixpoint for_each {St A : Type} (body : St -> A -> option St) (xs : list A) (s : St)
  : option St :=
  match xs with
  | [] => Some s
  | x :: xs' =>
      match body s x with
      | Some s' => for_each body xs' s'
      | None => None
      end
  end.

End PyNum.
Import PyNum.

(** ** The [math] module

    [math.sin] and [math.cos] come from the platform's C library, which is
    not part of the repository: they are taken as an interface.  Both raise
    [ValueError] on an infinite argument, hence [option]. *)

Class MathLib := {
  math_sin : float -> option float;
  math_cos : float -> option float;
}.

(** [math.pi], the binary64 nearest to pi. *)
Definition math_pi : float := 0x1.921fb54442d18p+1%float.

(** ** Constants *)

Definition ROWS : Z := 17.
Definition COLS : Z := 42.
Definition NUM_FRAMES : Z := 36.
Definition SCALE : float := 4.2%float.
Definition ASPECT : float := 2.1%float.

(** Exact conversions of the small [int] constants used in float
    arithmetic ([COLS / 2.0], [frame / NUM_FRAMES], [math.pi / 4]). *)
Definition ROWS_f : float := 17%float.
Definition COLS_f : float := 42%float.
Definition NUM_FRAMES_f : float := 36%float.

Abbreviation vec3 := (float * float * float)%type.
Abbreviation vec2 := (float * float)%type.

(** ** 3D math *)

Section Pipeline.
Context {M : MathLib}.

Definition _rot (x y z ax ay az : float) : option vec3 :=
  (* X *)
  s ← math_sin ax; c ← math_cos ax;
  let '(y, z) := (y * c - z * s, y * s + z * c)%float in
  (* Y *)
  s ← math_sin ay; c ← math_cos ay;
  let '(x, z) := (x * c + z * s, - x * s + z * c)%float in
  (* Z *)
  s ← math_sin az; c ← math_cos az;
  let '(x, y) := (x * c - y * s, x * s + y * c)%float in
  Some (x, y, z).

End Pipeline.

Definition _project (x y _z : float) : vec2 :=
  (COLS_f / 2.0 + x * ASPECT, ROWS_f / 2.0 + y)%float.

(** ** Cube definition *)

Definition _VERTS : list (Z * Z * Z) :=
  [ (-1, -1, -1); ( 1, -1, -1); ( 1,  1, -1); (-1,  1, -1);   (* back *)
    (-1, -1,  1); ( 1, -1,  1); ( 1,  1,  1); (-1,  1,  1) ]. (* front *)

Abbreviation edge := (nat * nat)%type.
Abbreviation face := (nat * nat * nat * nat)%type.

Definition _EDGES : list edge :=
  [ (0, 1); (1, 2); (2, 3); (3, 0);
    (4, 5); (5, 6); (6, 7); (7, 4);
    (0, 4); (1, 5); (2, 6); (3, 7) ]%nat.

(** Each face is 4 vertex indices (in CCW order when seen from outside). *)
Definition _FACES : list face :=
  [ (0, 3, 2, 1);   (* back   (z = -1) *)
    (4, 5, 6, 7);   (* front  (z = +1) *)
    (0, 1, 5, 4);   (* bottom (y = -1) *)
    (2, 3, 7, 6);   (* top    (y = +1) *)
    (0, 4, 7, 3);   (* left   (x = -1) *)
    (1, 2, 6, 5) ]%nat. (* right  (x = +1) *)

(** Which edges belong to which faces. *)
Definition _FACE_EDGES : list (gset edge) :=
  [ {[ (0,1); (1,2); (2,3); (3,0) ]};
    {[ (4,5); (5,6); (6,7); (7,4) ]};
    {[ (0,1); (1,5); (5,4); (0,4) ]};
    {[ (2,3); (3,7); (7,6); (2,6) ]};
    {[ (0,3); (3,7); (7,4); (0,4) ]};
    {[ (1,2); (2,6); (6,5); (1,5) ]} ]%nat.

(** Check if a face is front-facing (visible) using cross-product normal.
    The keyword argument [cam_z] of the source is never read and is left
    out.  [verts_3d[a]] is a list lookup: [None] is the [IndexError]. *)
Definition _face_visible (verts_3d : list vec3) (f : face) : option bool :=
  let '(a, b, c, _) := f in
  '(ax, ay, az) ← verts_3d !! a;
  '(bx, by_, bz) ← verts_3d !! b;
  '(cx, cy, cz) ← verts_3d !! c;
  (* Two edge vectors *)
  let '(e1x, e1y, e1z) := (bx - ax, by_ - ay, bz - az)%float in
  let '(e2x, e2y, e2z) := (cx - ax, cy - ay, cz - az)%float in
  (* Normal (cross product) *)
  let nx := (e1y * e2z - e1z * e2y)%float in
  let ny := (e1z * e2x - e1x * e2z)%float in
  let nz := (e1x * e2y - e1y * e2x)%float in
  (* Camera looks along -Z, so face visible if nz > 0 *)
  Some (0 <? nz)%float.

(** ** Line drawing *)

(** A canvas is a list of rows, each a list of one-character cells. *)
Abbreviation canvas := (list (list ascii)).

(** [0 <= r < ROWS and 0 <= c < COLS] *)
Definition in_grid (r c : Z) : bool :=
  ((0 <=? r) && (r <? ROWS)) && ((0 <=? c) && (c <? COLS)).

(** [canvas[r][c] = ch], with Python's indexing of both lists. *)
Definition set_cell (cv : canvas) (r c : Z) (ch : ascii) : option canvas :=
  ri ← py_index (length cv) r;
  row ← cv !! ri;
  ci ← py_index (length row) c;
  Some (<[ri := <[ci := ch]> row]> cv).

(** Pick char based on local direction. *)
Definition pick_char (sc sr : Z) : ascii :=
  if sr =? 0 then "-"%char
  else if sc =? 0 then "|"%char
  else if ((0 <? sc) && (0 <? sr)) || ((sc <? 0) && (sr <? 0)) then "\"%char
  else "/"%char.

(** The state carried round the sampling loop of [_draw_line]. *)
Abbreviation line_state := (canvas * Z * Z)%type.

(** One iteration of [for i in range(steps + 1)]. *)
Definition line_step (c0 r0 c1 r1 : float) (ic0 ir0 ic1 ir1 steps : Z)
    (st : line_state) (i : Z) : option line_state :=
  let '(cv, prev_c, prev_r) := st in
  t ← int_truediv i steps;
  c ← py_round (c0 + t * (c1 - c0))%float;
  r ← py_round (r0 + t * (r1 - r0))%float;
  cv' ← (if in_grid r c then
           let '(sc, sr) :=
             if i =? 0 then (ic1 - ic0, ir1 - ir0) else (c - prev_c, r - prev_r) in
           set_cell cv r c (pick_char sc sr)
         else Some cv);
  Some (cv', c, r).

(** Draw line with locally-adaptive characters. *)
Definition _draw_line (cv : canvas) (c0 r0 c1 r1 : float) : option canvas :=
  ic0 ← py_round c0; ir0 ← py_round r0;
  ic1 ← py_round c1; ir1 ← py_round r1;
  let dc := ic1 - ic0 in
  let dr := ir1 - ir0 in
  let steps := Z.max (Z.abs dc) (Z.abs dr) in
  if steps =? 0 then
    if in_grid ir0 ic0 then set_cell cv ir0 ic0 "+"%char else Some cv
  else
    (* Sample points along the line *)
    st ← for_each (line_step c0 r0 c1 r1 ic0 ir0 ic1 ir1 steps)
                  (seqZ 0 (steps + 1)) (cv, ic0, ir0);
    Some st.1.1.

(** ** Rendering one frame *)

(** The newline character. *)
Definition newline : ascii := "010"%char.

(** ["\n".join("".join(row) for row in canvas)] *)
Definition join_rows (cv : canvas) : string :=
  String.concat (String newline EmptyString) (map string_of_list_ascii cv).

(** [[[" "] * COLS for _ in range(ROWS)]]: the comprehension builds a
    fresh row each time, so no two rows are the same object. *)
Definition blank_canvas : canvas :=
  replicate (Z.to_nat ROWS) (replicate (Z.to_nat COLS) " "%char).

(** The angle schedule at the head of [_render_frame]. *)
Definition frame_angles (frame : Z) : option (float * float * float) :=
  fr ← float_of_int frame;
  let t := (2.0 * math_pi * fr / NUM_FRAMES_f)%float in
  let ax := 0.6%float in                      (* fixed ~34 degree tilt *)
  let ay := (t + math_pi / 4)%float in        (* start at 45 degrees (isometric) *)
  let az := (t * 0.35 + 0.3)%float in         (* slow tumble with offset *)
  Some (ax, ay, az).

(** Draw vertices: one iteration of [for sc, sr in verts_2d]. *)
Definition vertex_step (cv : canvas) (p : vec2) : option canvas :=
  let '(sc, sr) := p in
  c ← py_round sc; r ← py_round sr;
  if in_grid r c then set_cell cv r c "o"%char else Some cv.

(** Determine visible edges via back-face culling: one iteration of
    [for fi, face in enumerate(_FACES)]. *)
Definition cull_step (verts_3d : list vec3) (visible_edges : gset edge)
    (fif : nat * face) : option (gset edge) :=
  let '(fi, f) := fif in
  vis ← _face_visible verts_3d f;
  if vis : bool then
    es ← _FACE_EDGES !! fi;
    Some (visible_edges ∪ es)
  else Some visible_edges.

Definition visible_edge_set (verts_3d : list vec3) : option (gset edge) :=
  for_each (cull_step verts_3d) (zip (seq 0 (length _FACES)) _FACES) ∅.

(** The test that keeps an edge of [_EDGES]. *)
Definition edge_selected (visible_edges : gset edge) (e : edge) : bool :=
  let '(i0, i1) := e in
  negb (bool_decide ((i0, i1) ∉ visible_edges) && bool_decide ((i1, i0) ∉ visible_edges)).

(** Draw visible edges: one iteration of [for i0, i1 in _EDGES]. *)
Definition edge_step (verts_2d : list vec2) (visible_edges : gset edge)
    (cv : canvas) (e : edge) : option canvas :=
  if edge_selected visible_edges e then
    let '(i0, i1) := e in
    '(c0, r0) ← verts_2d !! i0;
    '(c1, r1) ← verts_2d !! i1;
    _draw_line cv c0 r0 c1 r1
  else Some cv.

(** Rasterise transformed vertices: everything of [_render_frame] after
    the transform loop. *)
Definition rasterize (verts_3d : list vec3) (verts_2d : list vec2) : option string :=
  visible_edges ← visible_edge_set verts_3d;
  cv ← for_each (edge_step verts_2d visible_edges) _EDGES blank_canvas;
  cv ← for_each vertex_step verts_2d cv;
  Some (join_rows cv).

Section Render.
Context {M : MathLib}.

(** Transform vertices: one iteration of [for vx, vy, vz in _VERTS]. *)
Definition transform_step (ax ay az : float) (acc : list vec3 * list vec2)
    (v : Z * Z * Z) : option (list vec3 * list vec2) :=
  let '(verts_3d, verts_2d) := acc in
  let '(vx, vy, vz) := v in
  fx ← float_of_int vx; fy ← float_of_int vy; fz ← float_of_int vz;
  '(x, y, z) ← _rot (fx * SCALE) (fy * SCALE) (fz * SCALE) ax ay az;
  Some (verts_3d ++ [(x, y, z)], verts_2d ++ [_project x y z]).

Definition render_at (ax ay az : float) : option string :=
  '(verts_3d, verts_2d) ← for_each (transform_step ax ay az) _VERTS ([], []);
  rasterize verts_3d verts_2d.

Definition _render_frame (frame : Z) : option string :=
  '(ax, ay, az) ← frame_angles frame;
  render_at ax ay az.

(** ** The driver

    The file system is a map from paths to contents; [root] is the
    directory [frames/default] next to the script's parent directory.
    [mkdir] and the closing [print] touch no file and are left out. *)

Definition frame_path (root : string) (f : Z) : string :=
  root +:+ "/" +:+ "frame_" +:+ py_str f +:+ ".txt".

(** One iteration of [for f in range(1, NUM_FRAMES + 1)]. *)
Definition main_step (root : string) (fs : gmap string string) (f : Z)
    : option (gmap string string) :=
  text ← _render_frame (f - 1);
  Some (<[frame_path root f := text]> fs).

Definition main (root : string) (fs : gmap string string)
    : option (gmap string string) :=
  for_each (main_step root) (seqZ 1 NUM_FRAMES) fs.

End Render.

(** ** A runnable [math] library

    Sine and cosine by range reduction and a truncated Taylor series,
    clamped to [[-1, 1]]: an implementation of the [MathLib] interface on
    which the pipeline can be evaluated.  Nothing is claimed about its
    accuracy; theorems that hold for every [MathLib] hold for the C
    library's functions as well. *)

(** The angle brought back to within half a turn of zero. *)
Definition reduce_angle (x : float) : float :=
  let turn := (2 * math_pi)%float in
  match py_round (x / turn) with
  | Some n =>
      match float_of_int n with
      | Some fn => (x - fn * turn)%float
      | None => x
      end
  | None => x
  end.

Definition clamp_unit (v : float) : float :=
  if (v <? -1)%float then (-1)%float else if (1 <? v)%float then 1%float else v.

Definition taylor_sin (x : float) : float :=
  let x := reduce_angle x in
  let x2 := (x * x)%float in
  clamp_unit
    (x * (1 - x2 / 6 * (1 - x2 / 20 * (1 - x2 / 42 * (1 - x2 / 72 *
         (1 - x2 / 110 * (1 - x2 / 156 * (1 - x2 / 210 * (1 - x2 / 272 *
         (1 - x2 / 342 * (1 - x2 / 420)))))))))))%float.

Definition taylor_cos (x : float) : float :=
  let x := reduce_angle x in
  let x2 := (x * x)%float in
  clamp_unit
    (1 - x2 / 2 * (1 - x2 / 12 * (1 - x2 / 30 * (1 - x2 / 56 *
         (1 - x2 / 90 * (1 - x2 / 132 * (1 - x2 / 182 * (1 - x2 / 240 *
         (1 - x2 / 306 * (1 - x2 / 380))))))))))%float.

Definition taylor_math : MathLib :=
  {| math_sin x := Some (taylor_sin x); math_cos x := Some (taylor_cos x) |}.

(** ** Reference definitions, following the specification's wording *)

Module Spec.

(** *** Rotation about one axis, over any arithmetic *)

Record arith (A : Type) := Arith {
  add : A -> A -> A;
  sub : A -> A -> A;
  mul : A -> A -> A;
  opp : A -> A;
}.
Arguments add {A} _ _ _.
Arguments sub {A} _ _ _.
Arguments mul {A} _ _ _.
Arguments opp {A} _ _.

Definition float_arith : arith float :=
  Arith float PrimFloat.add PrimFloat.sub PrimFloat.mul PrimFloat.opp.
Definition Z_arith : arith Z := Arith Z Z.add Z.sub Z.mul Z.opp.

Inductive axis := AxisX | AxisY | AxisZ.

(** The right-handed rotation of [(x, y, z)] about an axis by an angle
    of sine [s] and cosine [c]. *)
Definition rot_about {A} (ar : arith A) (a : axis) (s c : A) (p : A * A * A)
    : A * A * A :=
  let '(x, y, z) := p in
  match a with
  | AxisX => (x, sub ar (mul ar y c) (mul ar z s), add ar (mul ar y s) (mul ar z c))
  | AxisY => (add ar (mul ar x c) (mul ar z s), y, add ar (mul ar (opp ar x) s) (mul ar z c))
  | AxisZ => (sub ar (mul ar x c) (mul ar y s), add ar (mul ar x s) (mul ar y c), z)
  end.

(** The textbook rotation matrices, rows first, over the integers. *)
Definition matrix : Type := (Z * Z * Z) * (Z * Z * Z) * (Z * Z * Z).

Definition rotation_matrix (a : axis) (s c : Z) : matrix :=
  match a with
  | AxisX => ((1, 0, 0), (0, c, - s), (0, s, c))
  | AxisY => ((c, 0, s), (0, 1, 0), (- s, 0, c))
  | AxisZ => ((c, - s, 0), (s, c, 0), (0, 0, 1))
  end.

Definition dot (r v : Z * Z * Z) : Z :=
  let '(a, b, c) := r in let '(x, y, z) := v in a * x + b * y + c * z.

Definition mat_vec (m : matrix) (v : Z * Z * Z) : Z * Z * Z :=
  let '(r1, r2, r3) := m in (dot r1 v, dot r2 v, dot r3 v).

(** Rotations applied one after the other, first element first, each
    with the sine and cosine of its angle. *)
Definition rot_seq (steps : list (axis * (float * float))) (p : vec3) : vec3 :=
  foldl (fun q '(a, (s, c)) => rot_about float_arith a s c q) p steps.

(** *** Projection *)

Definition project (cols rows : float) (p : vec3) : vec2 :=
  let '(x, y, _) := p in (cols / 2 + x * ASPECT, rows / 2 + y)%float.

(** *** Angle schedule: [t = 2 pi i / NUM_FRAMES], [ax = 0.6],
    [ay = t + pi / 4], [az = 0.35 t + 0.3]. *)

Definition schedule (i n : float) : float * float * float :=
  let t := (2 * math_pi * i / n)%float in
  (0.6, t + math_pi / 4, 0.35 * t + 0.3)%float.

(** The three axes, each with the sine and cosine of its angle, taken
    in the order [o]. *)
Definition with_trig `{MathLib} (ax ay az : float) (o : list axis)
    : option (list (axis * (float * float))) :=
  mapM (fun a =>
          let angle := match a with AxisX => ax | AxisY => ay | AxisZ => az end in
          s ← math_sin angle; c ← math_cos angle; Some (a, (s, c))) o.

(** Componentwise numerical equality of two points. *)
Definition vec3_eqb (p q : vec3) : bool :=
  let '(x, y, z) := p in let '(x', y', z') := q in
  ((x =? x') && (y =? y') && (z =? z'))%float.

(** *** Visibility *)

Definition vsub (p q : vec3) : vec3 :=
  let '(px, py, pz) := p in let '(qx, qy, qz) := q in
  (px - qx, py - qy, pz - qz)%float.

(** The cross product [u x v]. *)
Definition cross (u v : vec3) : vec3 :=
  let '(ux, uy, uz) := u in let '(vx, vy, vz) := v in
  (uy * vz - uz * vy, uz * vx - ux * vz, ux * vy - uy * vx)%float.

(** Z-component of the normal of a face whose first three vertices are
    [a], [b], [c]: the cross product of the edge vectors [b - a] and
    [c - a]. *)
Definition normal_z (a b c : vec3) : float := (cross (vsub b a) (vsub c a)).2.

(** A float that is strictly positive: neither a zero of either sign,
    nor negative, nor NaN. *)
Definition strictly_positive (x : float) : Prop :=
  match Prim2SF x with
  | S754_finite false _ _ | S754_infinity false => True
  | _ => False
  end.

(** The boundary of a quad: its four sides, in winding order. *)
Definition boundary (f : face) : list edge :=
  let '(a, b, c, d) := f in [(a, b); (b, c); (c, d); (d, a)].

(** An edge is an unordered pair of vertex indices. *)
Definition on_boundary (e : edge) (f : face) : Prop :=
  e ∈ boundary f \/ (e.2, e.1) ∈ boundary f.

(** How many faces pass the visibility test, and how many edges of
    [_EDGES] are selected for drawing. *)
Definition count_visible_faces (verts_3d : list vec3) : nat :=
  length (filter (fun f => _face_visible verts_3d f = Some true) _FACES).

Definition count_selected_edges (verts_3d : list vec3) : option nat :=
  visible_edges ← visible_edge_set verts_3d;
  Some (length (filter (fun e => edge_selected visible_edges e = true) _EDGES)).

(** The cube with no rotation: each vertex only scaled by [SCALE]. *)
Definition scaled_verts : option (list vec3) :=
  mapM (fun '(vx, vy, vz) =>
          fx ← float_of_int vx; fy ← float_of_int vy; fz ← float_of_int vz;
          Some (fx * SCALE, fy * SCALE, fz * SCALE)%float) _VERTS.

(** The face and edge counts at zero rotation, for a [math] library
    with [sin 0 = 0] and [cos 0 = 1]. *)
Definition zero_rotation_counts (faces edges : nat) : Prop :=
  forall M : MathLib,
    math_sin 0 = Some 0%float -> math_cos 0 = Some 1%float ->
    exists verts_3d verts_2d,
      for_each (transform_step 0 0 0) _VERTS ([], []) = Some (verts_3d, verts_2d) /\
      scaled_verts = Some verts_3d /\
      count_visible_faces verts_3d = faces /\
      count_selected_edges verts_3d = Some edges.

(** The faces that pass the visibility test and the edges of [_EDGES]
    selected for drawing, both in table order. *)
Definition visible_faces (verts_3d : list vec3) : list face :=
  filter (fun f => _face_visible verts_3d f = Some true) _FACES.

Definition selected_edges (verts_3d : list vec3) : option (list edge) :=
  visible_edges ← visible_edge_set verts_3d;
  Some (filter (fun e => edge_selected visible_edges e = true) _EDGES).

(** The front face of the cube, and a face all of whose vertices have
    the coordinate [z = k] in [_VERTS]. *)
Definition front_face : face := (4, 5, 6, 7)%nat.

Definition face_in_plane_z (f : face) (k : Z) : Prop :=
  let '(a, b, c, d) := f in
  forall i : nat, i ∈ [a; b; c; d] -> exists x y, _VERTS !! i = Some (x, y, k).

(** Which faces are visible and which edges are selected at zero
    rotation, for a [math] library with [sin 0 = 0] and [cos 0 = 1]. *)
Definition zero_rotation_view (faces : list face) (edges : list edge) : Prop :=
  forall M : MathLib,
    math_sin 0 = Some 0%float -> math_cos 0 = Some 1%float ->
    exists verts_3d verts_2d,
      for_each (transform_step 0 0 0) _VERTS ([], []) = Some (verts_3d, verts_2d) /\
      scaled_verts = Some verts_3d /\
      visible_faces verts_3d = faces /\
      selected_edges verts_3d = Some edges.

(** *** Line drawing *)

(** The content of the cell at row [r], column [c] (both counted from
    0). *)
Definition cell (cv : canvas) (r c : Z) : option ascii :=
  row ← cv !! Z.to_nat r; row !! Z.to_nat c.

(** The glyph for a local direction of column delta [sc] and row delta
    [sr]: flat, upright, falling (same signs) or rising (opposite
    signs). *)
Definition glyph (sc sr : Z) : ascii :=
  if decide (sr = 0) then "-"%char
  else if decide (sc = 0) then "|"%char
  else if decide (Z.sgn sc = Z.sgn sr) then "\"%char
  else "/"%char.

(** Sample [i] of [steps], as (column, row): interpolated between the
    unrounded endpoints, then rounded. *)
Definition sample (c0 r0 c1 r1 : float) (steps i : Z) : option (Z * Z) :=
  t ← int_truediv i steps;
  c ← py_round (c0 + t * (c1 - c0))%float;
  r ← py_round (r0 + t * (r1 - r0))%float;
  Some (c, r).

(** Plot a glyph at (column, row): a point off the grid is skipped, a
    point on it replaces what the cell held. *)
Definition plot (cv : canvas) (p : Z * Z) (ch : ascii) : option canvas :=
  let '(c, r) := p in if in_grid r c then set_cell cv r c ch else Some cv.

Definition delta (from to : Z * Z) : Z * Z := (to.1 - from.1, to.2 - from.2).

(** The local direction at each sample: from the rounded start to the
    rounded end at the first one, from the previous sample to the
    current one afterwards. *)
Definition directions (start finish : Z * Z) (pts : list (Z * Z)) : list (Z * Z) :=
  match pts with
  | [] => []
  | _ :: rest => delta start finish :: zip_with delta pts rest
  end.

Definition draw_line (cv : canvas) (c0 r0 c1 r1 : float) : option canvas :=
  ic0 ← py_round c0; ir0 ← py_round r0;
  ic1 ← py_round c1; ir1 ← py_round r1;
  let steps := Z.max (Z.abs (ic1 - ic0)) (Z.abs (ir1 - ir0)) in
  if decide (steps = 0) then plot cv (ic0, ir0) "+"%char
  else
    pts ← mapM (sample c0 r0 c1 r1 steps) (seqZ 0 (steps + 1));
    let glyphs := map (fun d => glyph d.1 d.2) (directions (ic0, ir0) (ic1, ir1) pts) in
    for_each (fun cv pg => plot cv pg.1 pg.2) (zip pts glyphs) cv.

(** *** Drawing the edges *)

(** The line of an edge: between the projected positions of its two
    end vertices. *)
Definition draw_edge (verts_2d : list vec2) (cv : canvas) (e : edge) : option canvas :=
  '(c0, r0) ← verts_2d !! e.1;
  '(c1, r1) ← verts_2d !! e.2;
  _draw_line cv c0 r0 c1 r1.

End Spec.


(** ** Auxiliary definitions for the proofs *)

(** *** Magnitude of a float

    [mag_le k x]: [x] is a zero or a finite float below [2^k] in absolute
    value (its mantissa has [d] digits and its exponent is [e], with
    [d + e <= k]).  In particular [x] is neither an infinity nor a NaN. *)

Definition sf_mag_le (k : Z) (x : spec_float) : bool :=
  match x with
  | S754_zero _ => true
  | S754_finite _ m e => Z.pos (digits2_pos m) + e <=? k
  | S754_infinity _ | S754_nan => false
  end.

Definition mag_le (k : Z) (x : float) : bool := sf_mag_le k (Prim2SF x).

(** A float between -1 and 1 (so not a NaN either). *)
Definition in_unit (x : float) : bool := ((-1 <=? x) && (x <=? 1))%float.

(** A point of the plane whose coordinates are both below [2^k]. *)
Definition vec2_mag_le (k : Z) (p : vec2) : bool := mag_le k p.1 && mag_le k p.2.

(** The sine and cosine of an angle are both returned, and within
    [[-1, 1]]. *)
Definition trig_in_unit `{MathLib} (a : float) : bool :=
  match math_sin a, math_cos a with
  | Some s, Some c => in_unit s && in_unit c
  | _, _ => false
  end.

(** The same for the three angles of a frame. *)
Definition frame_trig_ok `{MathLib} (frame : Z) : bool :=
  match frame_angles frame with
  | Some (ax, ay, az) => trig_in_unit ax && trig_in_unit ay && trig_in_unit az
  | None => false
  end.

(** *** Canvas invariants *)

(** The seven glyphs a cell can hold. *)
Definition glyphs : list ascii := [" "; "-"; "|"; "\"; "/"; "+"; "o"]%char.

Definition grid_shaped (cv : canvas) : Prop :=
  length cv = Z.to_nat ROWS /\ Forall (fun row => length row = Z.to_nat COLS) cv.

Definition glyphs_only (cv : canvas) : Prop :=
  Forall (Forall (fun ch => ch ∈ glyphs)) cv.

Definition canvas_ok (cv : canvas) : Prop := grid_shaped cv /\ glyphs_only cv.

(** *** Lines of a string *)

(** [s.split("\n")]: the pieces of [s] between newlines. *)
Fixpoint split_lines (s : string) : list string :=
  match s with
  | EmptyString => [EmptyString]
  | String ch s' =>
      if Ascii.eqb ch newline then EmptyString :: split_lines s'
      else
        match split_lines s' with
        | l :: ls => String ch l :: ls
        | [] => [String ch EmptyString]
        end
  end.

(** *** The driver's contract *)

(** The trigonometric functions behave on the angles of all the frames
    of the loop. *)
Definition all_frames_trig_ok `{MathLib} : bool :=
  forallb frame_trig_ok (seqZ 0 NUM_FRAMES).

(** The name of a file inside the output directory. *)
Definition frame_name (f : Z) : string := "frame_" +:+ py_str f +:+ ".txt".

(** Run on an empty directory, the driver leaves exactly [NUM_FRAMES]
    files, and the frame of index [N] is the content of the file tagged
    [tag N]. *)
Definition driver_writes (tag : Z -> Z) : Prop :=
  forall (M : MathLib) (root : string),
    all_frames_trig_ok = true ->
    exists fs : gmap string string,
      main root ∅ = Some fs /\
      size fs = Z.to_nat NUM_FRAMES /\
      forall N, 0 <= N < NUM_FRAMES ->
        is_Some (_render_frame N) /\
        fs !! frame_path root (tag N) = _render_frame N.

(** *** Cells of a canvas, by row and column number *)

Definition cell_at (cv : canvas) (i j : nat) : option ascii :=
  cv !! i ≫= fun row => row !! j.

(** The glyphs a line sample can be drawn with. *)
Definition line_glyphs : list ascii := ["-"; "|"; "\"; "/"]%char.

(** [draws chs cv cv']: [cv'] has the dimensions of [cv] and differs from
    it only in cells of the [ROWS] by [COLS] window, which then hold a
    character of [chs]. *)
Definition draws (chs : list ascii) (cv cv' : canvas) : Prop :=
  map length cv' = map length cv /\
  forall i j : nat,
    cell_at cv' i j = cell_at cv i j \/
    (in_grid (Z.of_nat i) (Z.of_nat j) = true /\
     exists ch, ch ∈ chs /\ cell_at cv' i j = Some ch).

(** The file contents [main] aims at: file [f] holds frame [f - 1]. *)
Definition frame_files `{MathLib} (root : string) (fs : gmap string string)
    : gmap string string :=
  foldl (fun m f => <[frame_path root f := default EmptyString (_render_frame (f - 1))]> m)
    fs (seqZ 1 NUM_FRAMES).

(** The projected vertices of a frame: the list [verts_2d] that
    [_render_frame] builds before it draws. *)
Definition projected_vertices `{MathLib} (frame : Z) : option (list vec2) :=
  '(ax, ay, az) ← frame_angles frame;
  acc ← for_each (transform_step ax ay az) _VERTS ([], []);
  Some acc.2.

(** Every ["+"] of a canvas sits on the grid cell that one of the points
    [vs] rounds to. *)
Definition plus_on_vertices (vs : list vec2) (cv : canvas) : Prop :=
  forall i j : nat,
    cell_at cv i j = Some "+"%char ->
    in_grid (Z.of_nat i) (Z.of_nat j) = true /\
    exists p, p ∈ vs /\ py_round p.1 = Some (Z.of_nat j) /\ py_round p.2 = Some (Z.of_nat i).

(** [_face_visible] on a face whose entries are arbitrary [int]s, as the
    function accepts them: [verts_3d[a]] counts a negative index from the
    end of the list and raises [IndexError] outside [-len .. len - 1].  The
    faces of [_FACES] hold no negative index; on those this is
    [_face_visible]. *)
Definition _face_visible_int (verts_3d : list vec3) (f : Z * Z * Z * Z) : option bool :=
  let '(a, b, c, _) := f in
  '(ax, ay, az) ← (i ← py_index (length verts_3d) a; verts_3d !! i);
  '(bx, by_, bz) ← (i ← py_index (length verts_3d) b; verts_3d !! i);
  '(cx, cy, cz) ← (i ← py_index (length verts_3d) c; verts_3d !! i);
  let '(e1x, e1y, e1z) := (bx - ax, by_ - ay, bz - az)%float in
  let '(e2x, e2y, e2z) := (cx - ax, cy - ay, cz - az)%float in
  let nx := (e1y * e2z - e1z * e2y)%float in
  let ny := (e1z * e2x - e1x * e2z)%float in
  let nz := (e1x * e2y - e1y * e2x)%float in
  Some (0 <? nz)%float.
(** * Properties *)

(** ** Binary64 facts *)

Lemma SFmul_comm (x y : spec_float) : SFmul prec emax x y = SFmul prec emax y x.
Proof.
  destruct x as [sx|sx| |sx mx ex], y as [sy|sy| |sy my ey]; simpl;
    rewrite ?(xorb_comm sy sx); try reflexivity.
  now rewrite (Pos.mul_comm my mx), (Z.add_comm ey ex).
Qed.

Lemma float_mul_comm (x y : float) : (x * y = y * x)%float.
Proof.
  apply Prim2SF_inj. rewrite !mul_spec. apply SFmul_comm.
Qed.

(** Small [int]s convert to floats without overflow. *)
Lemma float_of_int_frames (i : Z) :
  0 <= i < NUM_FRAMES -> is_Some (float_of_int i).
Proof.
  intros Hi.
  assert (Hall : forallb (fun j => bool_decide (is_Some (float_of_int j)))
                   (seqZ 0 NUM_FRAMES) = true) by (vm_compute; reflexivity).
  rewrite forallb_forall in Hall.
  specialize (Hall i). rewrite bool_decide_eq_true in Hall. apply Hall.
  apply list_elem_of_In, elem_of_seqZ. lia.
Qed.


(** *** Digits of a mantissa *)

Lemma digits2_pos_size (p : positive) : digits2_pos p = Pos.size p.
Proof. induction p; simpl; congruence. Qed.

Lemma Zdigits2_log2 (m : Z) : 0 < m -> Zdigits2 m = Z.log2 m + 1.
Proof.
  destruct m as [|p|p]; try lia. intros _. simpl. rewrite digits2_pos_size.
  destruct p; simpl; lia.
Qed.

Lemma Zdigits2_nonneg (m : Z) : 0 <= Zdigits2 m.
Proof. destruct m; simpl; lia. Qed.

Lemma Zdigits2_pos (m : Z) : 0 < m -> 0 < Zdigits2 m.
Proof. destruct m; simpl; lia. Qed.

(** [m < 2^d] bounds the number of digits by [d]. *)
Lemma Zdigits2_le (m d : Z) : 0 <= m -> 0 <= d -> m < 2 ^ d -> Zdigits2 m <= d.
Proof.
  intros Hm Hd Hlt. destruct (Z.eq_dec m 0) as [->|Hne]; [simpl; lia|].
  rewrite Zdigits2_log2 by lia.
  assert (Z.log2 m < d) by (apply Z.log2_lt_pow2; lia). lia.
Qed.

Lemma Zdigits2_ge (m d : Z) : 0 <= d -> 2 ^ d <= m -> d + 1 <= Zdigits2 m.
Proof.
  intros Hd Hle. assert (0 < 2 ^ d) by (apply Z.pow_pos_nonneg; lia).
  rewrite Zdigits2_log2 by lia.
  assert (d <= Z.log2 m) by (apply Z.log2_le_pow2; lia). lia.
Qed.

Lemma Zdigits2_bounds (m : Z) : 0 < m -> 2 ^ (Zdigits2 m - 1) <= m < 2 ^ Zdigits2 m.
Proof.
  intros Hm. rewrite Zdigits2_log2 by lia.
  replace (Z.log2 m + 1 - 1) with (Z.log2 m) by lia.
  replace (Z.log2 m + 1) with (Z.succ (Z.log2 m)) by lia.
  now apply Z.log2_spec.
Qed.

Lemma Zdigits2_mono (m n : Z) : 0 <= m <= n -> Zdigits2 m <= Zdigits2 n.
Proof.
  intros [Hm Hmn]. destruct (Z.eq_dec m 0) as [->|Hne]; [apply Zdigits2_nonneg|].
  rewrite !Zdigits2_log2 by lia.
  assert (Z.log2 m <= Z.log2 n) by (apply Z.log2_le_mono; lia). lia.
Qed.

Lemma Zdigits2_succ (m : Z) : 0 <= m -> Zdigits2 (m + 1) <= Zdigits2 m + 1.
Proof.
  intros Hm. destruct (Z.eq_dec m 0) as [->|Hne]; [simpl; lia|].
  apply Zdigits2_le; [lia|pose proof (Zdigits2_nonneg m); lia|].
  pose proof (Zdigits2_bounds m ltac:(lia)) as [_ Hlt].
  rewrite Z.pow_add_r by (pose proof (Zdigits2_nonneg m); lia). lia.
Qed.

Lemma Zdigits2_div_pow2 (m n : Z) :
  0 < m -> 0 <= n -> 0 < m / 2 ^ n -> Zdigits2 (m / 2 ^ n) = Zdigits2 m - n.
Proof.
  intros Hm Hn Hq. rewrite !Zdigits2_log2 by lia.
  rewrite <- Z.shiftr_div_pow2 by lia.
  rewrite Z.log2_shiftr by lia.
  assert (n <= Z.log2 m); [|lia].
  apply Z.log2_le_pow2; [lia|].
  destruct (Z.le_gt_cases (2 ^ n) m) as [H|H]; [exact H|].
  rewrite Z.div_small in Hq by lia. lia.
Qed.

(** *** Shifting the mantissa right *)

Lemma shr_1_m (mrs : shr_record) :
  0 <= shr_m mrs -> shr_m (shr_1 mrs) = shr_m mrs / 2.
Proof.
  destruct mrs as [m r s]. cbn [shr_m]. intros Hm.
  destruct m as [|[p|p|]|p]; cbn [shr_1 shr_m]; try reflexivity; try lia.
  - apply (Z.div_unique _ _ _ 1); lia.
  - apply (Z.div_unique _ _ _ 0); lia.
Qed.

Lemma iter_shr_1_m (p : positive) (mrs : shr_record) :
  0 <= shr_m mrs -> shr_m (SpecFloat.iter_pos shr_1 p mrs) = shr_m mrs / 2 ^ Z.pos p.
Proof.
  revert mrs. induction p as [p IH|p IH|]; intros mrs Hm; simpl SpecFloat.iter_pos.
  - assert (H1 : 0 <= shr_m (shr_1 mrs)) by (rewrite shr_1_m by lia; apply Z.div_pos; lia).
    assert (H2 : 0 <= shr_m (SpecFloat.iter_pos shr_1 p (shr_1 mrs)))
      by (rewrite IH by lia; apply Z.div_pos; [lia|apply Z.pow_pos_nonneg; lia]).
    rewrite IH, IH, shr_1_m by lia.
    rewrite !Z.div_div by (try apply Z.pow_pos_nonneg; lia).
    f_equal. rewrite Pos2Z.inj_xI, <- Z.pow_add_r, <- Z.pow_succ_r by lia. f_equal. lia.
  - assert (H2 : 0 <= shr_m (SpecFloat.iter_pos shr_1 p mrs))
      by (rewrite IH by lia; apply Z.div_pos; [lia|apply Z.pow_pos_nonneg; lia]).
    rewrite IH, IH by lia.
    rewrite !Z.div_div by (try apply Z.pow_pos_nonneg; lia).
    f_equal. rewrite Pos2Z.inj_xO, <- Z.pow_add_r by lia. f_equal. lia.
  - now rewrite shr_1_m.
Qed.

Lemma shr_record_of_loc_m (m : Z) (l : location) : shr_m (shr_record_of_loc m l) = m.
Proof. destruct l as [|[]]; reflexivity. Qed.

(** [shr_fexp]: the mantissa is shifted right down to the larger of the
    old exponent and the format's, and a mantissa that survives keeps its
    magnitude. *)
Lemma shr_fexp_spec (m e : Z) (l : location) (mrs' : shr_record) (e' : Z) :
  0 <= m ->
  shr_fexp prec emax m e l = (mrs', e') ->
  0 <= shr_m mrs' <= m /\
  e' = Z.max e (fexp prec emax (Zdigits2 m + e)) /\
  shr_m mrs' = m / 2 ^ (e' - e) /\
  (shr_m mrs' = 0 \/ Zdigits2 (shr_m mrs') + e' = Zdigits2 m + e).
Proof.
  intros Hm. unfold shr_fexp, shr.
  destruct (fexp prec emax (Zdigits2 m + e) - e) as [|n|n] eqn:Hn; intros [= <- <-];
    rewrite ?shr_record_of_loc_m.
  - replace (e - e) with 0 by lia. rewrite Z.div_1_r.
    repeat split; lia.
  - replace (e + Z.pos n - e) with (Z.pos n) by lia.
    rewrite iter_shr_1_m by (rewrite shr_record_of_loc_m; lia).
    rewrite shr_record_of_loc_m.
    assert (Hpow : 0 < 2 ^ Z.pos n) by (apply Z.pow_pos_nonneg; lia).
    assert (Hq : 0 <= m / 2 ^ Z.pos n) by (apply Z.div_pos; lia).
    assert (Hle : m / 2 ^ Z.pos n <= m).
    { apply Z.div_le_upper_bound; [lia|]. nia. }
    split; [lia|]. split; [lia|]. split; [reflexivity|].
    destruct (Z.eq_dec (m / 2 ^ Z.pos n) 0) as [Hz|Hnz]; [left; exact Hz|right].
    rewrite Zdigits2_div_pow2; lia.
  - replace (e - e) with 0 by lia. rewrite Z.div_1_r.
    repeat split; lia.
Qed.

Lemma round_nearest_even_bounds (m : Z) (l : location) :
  m <= round_nearest_even m l <= m + 1.
Proof. destruct l as [|[]]; simpl; try destruct (Z.even m); lia. Qed.

Lemma fexp_eq (x : Z) : fexp prec emax x = Z.max (x - 53) (-1074).
Proof. reflexivity. Qed.

Ltac unfold_format := rewrite ?fexp_eq in *.

(** Rounding a non-negative mantissa: the result is a zero or a finite
    float, at most one binade above the input. *)
Lemma binary_round_aux_mag (sx : bool) (mx ex : Z) (lx : location) (k : Z) :
  0 <= mx -> Zdigits2 mx + ex <= k -> ex < k -> -1074 <= k <= 971 ->
  sf_mag_le (k + 1) (binary_round_aux prec emax sx mx ex lx) = true.
Proof.
  intros Hmx Hd Hex Hk. unfold binary_round_aux.
  destruct (shr_fexp prec emax mx ex lx) as [mrs1 e1] eqn:H1.
  apply shr_fexp_spec in H1 as ([Hm1 _] & He1 & _ & Hd1); [|exact Hmx].
  set (m2 := round_nearest_even (shr_m mrs1) (loc_of_shr_record mrs1)).
  pose proof (round_nearest_even_bounds (shr_m mrs1) (loc_of_shr_record mrs1)) as Hm2.
  fold m2 in Hm2.
  destruct (shr_fexp prec emax m2 e1 loc_Exact) as [mrs3 e3] eqn:H3.
  apply shr_fexp_spec in H3 as ([Hm3 _] & He3 & _ & Hd3); [|lia].
  pose proof (Zdigits2_nonneg mx) as Hdx.
  assert (Hdm2 : Zdigits2 m2 <= Zdigits2 (shr_m mrs1) + 1).
  { etransitivity; [apply (Zdigits2_mono m2 (shr_m mrs1 + 1)); lia|].
    apply Zdigits2_succ; lia. }
  assert (Hd2 : Zdigits2 m2 + e1 <= k + 1).
  { destruct Hd1 as [Hz|Hd1]; [|lia]. rewrite Hz in Hdm2. simpl in Hdm2.
    unfold_format. lia. }
  destruct (shr_m mrs3) as [|m3|m3] eqn:Hm; [reflexivity| |lia].
  destruct Hd3 as [Hz|Hd3]; [discriminate|]. simpl Zdigits2 in Hd3.
  assert (He : e3 <= 971) by (unfold_format; lia).
  change (IntDef.Z.leb e3 (IntDef.Z.sub emax prec)) with (e3 <=? 971).
  rewrite (proj2 (Z.leb_le e3 971) He). cbn [sf_mag_le]. apply Z.leb_le. lia.
Qed.

(** Rounding a mantissa already aligned on the format's exponent gives
    a valid float. *)
Lemma binary_round_aux_valid (sx : bool) (mx ex : Z) (lx : location) :
  0 <= mx -> ex <= fexp prec emax (Zdigits2 mx + ex) ->
  valid_binary (binary_round_aux prec emax sx mx ex lx) = true.
Proof.
  intros Hmx Hal. unfold binary_round_aux.
  destruct (shr_fexp prec emax mx ex lx) as [mrs1 e1] eqn:H1.
  apply shr_fexp_spec in H1 as ([Hm1 _] & He1 & Hq1 & Hd1); [|exact Hmx].
  set (m2 := round_nearest_even (shr_m mrs1) (loc_of_shr_record mrs1)).
  pose proof (round_nearest_even_bounds (shr_m mrs1) (loc_of_shr_record mrs1)) as Hm2.
  fold m2 in Hm2.
  destruct (shr_fexp prec emax m2 e1 loc_Exact) as [mrs3 e3] eqn:H3.
  apply shr_fexp_spec in H3 as ([Hm3 Hm3'] & He3 & _ & Hd3); [|lia].
  destruct (shr_m mrs3) as [|m3|m3] eqn:Hm; [reflexivity| |lia].
  destruct Hd3 as [Hz|Hd3]; [discriminate|]. simpl Zdigits2 in Hd3.
  change (IntDef.Z.leb e3 (IntDef.Z.sub emax prec)) with (e3 <=? 971).
  destruct (Z.leb_spec e3 971) as [He|He]; [|reflexivity].
  cbn [valid_binary]. unfold bounded, canonical_mantissa.
  change (IntDef.Z.leb e3 (IntDef.Z.sub emax prec)) with (e3 <=? 971).
  rewrite (proj2 (Z.leb_le e3 971) He), Bool.andb_true_r.
  change (IntDef.Z.eqb ?a ?b) with (Z.eqb a b).
  change (IntDef.Z.add ?a ?b) with (Z.add a b).
  apply Z.eqb_eq.
  rewrite Hd3.
  assert (Hmono : Zdigits2 (shr_m mrs1) <= Zdigits2 m2) by (apply Zdigits2_mono; lia).
  pose proof (Zdigits2_nonneg mx) as Hdx.
  pose proof (Zdigits2_nonneg m2) as Hdm2.
  assert (0 < m2) by lia.
  pose proof (Zdigits2_pos m2 ltac:(lia)).
  destruct Hd1 as [Hz|Hd1]; [|unfold_format; lia].
  (* everything was shifted out: the exponent is the smallest one *)
  assert (He1' : e1 = -1074); [|unfold_format; lia].
  destruct (Z.eq_dec mx 0) as [->|Hne]; [simpl Zdigits2 in *; unfold_format; lia|].
  assert (Hsmall : mx < 2 ^ (e1 - ex)).
  { assert (0 <= e1 - ex) by lia.
    assert (0 < 2 ^ (e1 - ex)) by (apply Z.pow_pos_nonneg; lia).
    rewrite Hz in Hq1. symmetry in Hq1. apply Z.div_small_iff in Hq1; lia. }
  assert (Zdigits2 mx <= e1 - ex) by (apply Zdigits2_le; lia).
  unfold_format. lia.
Qed.

Lemma sf_mag_le_mono (a b : Z) (x : spec_float) :
  a <= b -> sf_mag_le a x = true -> sf_mag_le b x = true.
Proof.
  intros Hab. destruct x as [s|s| |s m e]; simpl; try auto.
  rewrite !Z.leb_le. lia.
Qed.

Lemma mag_le_mono (a b : Z) (x : float) :
  a <= b -> mag_le a x = true -> mag_le b x = true.
Proof. apply sf_mag_le_mono. Qed.

Lemma pos_digits_bounds (m : positive) :
  2 ^ (Z.pos (digits2_pos m) - 1) <= Z.pos m < 2 ^ Z.pos (digits2_pos m).
Proof. apply (Zdigits2_bounds (Z.pos m)). lia. Qed.

(** *** Multiplication *)

Lemma SFmul_mag (a b : Z) (x y : spec_float) :
  sf_mag_le a x = true -> sf_mag_le b y = true -> -1074 <= a + b <= 971 ->
  sf_mag_le (a + b + 1) (SFmul prec emax x y) = true.
Proof.
  intros Hx Hy Hk.
  destruct x as [sx|sx| |sx mx ex], y as [sy|sy| |sy my ey]; try discriminate; try reflexivity.
  cbn [sf_mag_le] in Hx, Hy. apply Z.leb_le in Hx, Hy.
  change (SFmul prec emax (S754_finite sx mx ex) (S754_finite sy my ey))
    with (binary_round_aux prec emax (xorb sx sy) (Z.pos (mx * my)) (ex + ey) loc_Exact).
  pose proof (pos_digits_bounds mx) as [_ Hmx].
  pose proof (pos_digits_bounds my) as [_ Hmy].
  apply binary_round_aux_mag; try lia.
  assert (Zdigits2 (Z.pos (mx * my)) <= Z.pos (digits2_pos mx) + Z.pos (digits2_pos my)); [|lia].
  apply Zdigits2_le; try lia.
  rewrite Z.pow_add_r, Pos2Z.inj_mul by lia. nia.
Qed.

Lemma mul_mag (a b : Z) (x y : float) :
  mag_le a x = true -> mag_le b y = true -> -1074 <= a + b <= 971 ->
  mag_le (a + b + 1) (x * y) = true.
Proof. unfold mag_le. rewrite mul_spec. apply SFmul_mag. Qed.

(** *** Addition and subtraction *)

Lemma digits2_pos_iter_xO (m d : positive) :
  Z.pos (digits2_pos (Pos.iter xO m d)) = Z.pos (digits2_pos m) + Z.pos d.
Proof.
  induction d as [|d IH] using Pos.peano_ind.
  - simpl. lia.
  - rewrite Pos.iter_succ. cbn [digits2_pos]. lia.
Qed.

Lemma shl_align_spec (mx : positive) (ex ex' : Z) :
  Z.pos (digits2_pos (shl_align mx ex ex').1) + (shl_align mx ex ex').2 =
    Z.pos (digits2_pos mx) + ex /\
  (shl_align mx ex ex').2 = Z.min ex ex'.
Proof.
  unfold shl_align.
  change (IntDef.Z.sub ex' ex) with (ex' - ex).
  destruct (ex' - ex) as [|d|d] eqn:Hd; cbn [fst snd]; try lia.
  rewrite digits2_pos_iter_xO. lia.
Qed.

Lemma binary_round_mag (sx : bool) (mx : positive) (ex k : Z) :
  Z.pos (digits2_pos mx) + ex <= k -> -1074 <= k <= 971 ->
  sf_mag_le (k + 1) (binary_round prec emax sx mx ex) = true.
Proof.
  intros Hd Hk. unfold binary_round.
  pose proof (shl_align_spec mx ex (fexp prec emax (Z.pos (digits2_pos mx) + ex))) as [H1 H2].
  change (IntDef.Z.add (Z.pos (digits2_pos mx)) ex) with (Z.pos (digits2_pos mx) + ex).
  destruct (shl_align mx ex _) as [mz ez]. cbn [fst snd] in H1, H2.
  apply binary_round_aux_mag; cbn [Zdigits2]; lia.
Qed.

Lemma binary_normalize_mag (m e k : Z) :
  Zdigits2 m + e <= k -> -1074 <= k <= 971 ->
  sf_mag_le (k + 1) (binary_normalize prec emax m e false) = true.
Proof.
  intros Hd Hk. destruct m as [|p|p]; cbn [binary_normalize]; [reflexivity|..];
    apply binary_round_mag; assumption.
Qed.

(** The sum of two aligned mantissas, each with a sign. *)
Lemma aligned_sum_digits (sx sy : bool) (mx my : positive) (ez a : Z) :
  Z.pos (digits2_pos mx) + ez <= a -> Z.pos (digits2_pos my) + ez <= a ->
  Zdigits2 (cond_Zopp sx (Z.pos mx) + cond_Zopp sy (Z.pos my)) + ez <= a + 1.
Proof.
  intros Hx Hy.
  pose proof (pos_digits_bounds mx) as [_ Hmx].
  pose proof (pos_digits_bounds my) as [_ Hmy].
  set (s := cond_Zopp sx (Z.pos mx) + cond_Zopp sy (Z.pos my)).
  assert (Hs : Z.abs s <= Z.pos mx + Z.pos my)
    by (subst s; destruct sx, sy; cbn [cond_Zopp]; lia).
  assert (Hpx : 2 ^ Z.pos (digits2_pos mx) <= 2 ^ (a - ez)) by (apply Z.pow_le_mono_r; lia).
  assert (Hpy : 2 ^ Z.pos (digits2_pos my) <= 2 ^ (a - ez)) by (apply Z.pow_le_mono_r; lia).
  assert (Hd : Zdigits2 (Z.abs s) <= a - ez + 1).
  { apply Zdigits2_le; try lia. rewrite Z.pow_add_r by lia. lia. }
  replace (Zdigits2 s) with (Zdigits2 (Z.abs s)) by (destruct s; reflexivity). lia.
Qed.

Lemma SFadd_mag (a : Z) (x y : spec_float) :
  sf_mag_le a x = true -> sf_mag_le a y = true -> -1074 <= a <= 970 ->
  sf_mag_le (a + 2) (SFadd prec emax x y) = true.
Proof.
  intros Hx Hy Hk.
  destruct x as [sx|sx| |sx mx ex], y as [sy|sy| |sy my ey]; try discriminate;
    try (destruct sx, sy; reflexivity);
    try (cbn [SFadd]; eapply sf_mag_le_mono; [|eassumption]; lia).
  cbn [sf_mag_le] in Hx, Hy. apply Z.leb_le in Hx, Hy.
  cbn [SFadd].
  change (IntDef.Z.min ex ey) with (Z.min ex ey).
  change (IntDef.Z.add ?u ?v) with (u + v).
  pose proof (shl_align_spec mx ex (Z.min ex ey)) as [Hx1 Hx2].
  pose proof (shl_align_spec my ey (Z.min ex ey)) as [Hy1 Hy2].
  destruct (shl_align mx ex (Z.min ex ey)) as [mx' ex'].
  destruct (shl_align my ey (Z.min ex ey)) as [my' ey']. cbn [fst snd] in *.
  replace (a + 2) with (a + 1 + 1) by lia.
  apply binary_normalize_mag; [|lia].
  apply aligned_sum_digits; lia.
Qed.

Lemma add_mag (a : Z) (x y : float) :
  mag_le a x = true -> mag_le a y = true -> -1074 <= a <= 970 ->
  mag_le (a + 2) (x + y) = true.
Proof. unfold mag_le. rewrite add_spec. apply SFadd_mag. Qed.

Lemma SFopp_mag (a : Z) (x : spec_float) : sf_mag_le a (SFopp x) = sf_mag_le a x.
Proof. destruct x; reflexivity. Qed.

Lemma opp_mag (a : Z) (x : float) : mag_le a (- x) = mag_le a x.
Proof. unfold mag_le. rewrite opp_spec. apply SFopp_mag. Qed.

Lemma SFsub_mag (a : Z) (x y : spec_float) :
  sf_mag_le a x = true -> sf_mag_le a y = true -> -1074 <= a <= 970 ->
  sf_mag_le (a + 2) (SFsub prec emax x y) = true.
Proof.
  intros Hx Hy Hk.
  destruct x as [sx|sx| |sx mx ex], y as [sy|sy| |sy my ey]; try discriminate;
    try (destruct sx, sy; reflexivity);
    try (cbn [SFsub]; eapply sf_mag_le_mono; [|eassumption]; lia).
  cbn [sf_mag_le] in Hx, Hy. apply Z.leb_le in Hx, Hy.
  cbn [SFsub].
  change (IntDef.Z.min ex ey) with (Z.min ex ey).
  change (IntDef.Z.sub ?u ?v) with (u - v).
  pose proof (shl_align_spec mx ex (Z.min ex ey)) as [Hx1 Hx2].
  pose proof (shl_align_spec my ey (Z.min ex ey)) as [Hy1 Hy2].
  destruct (shl_align mx ex (Z.min ex ey)) as [mx' ex'].
  destruct (shl_align my ey (Z.min ex ey)) as [my' ey']. cbn [fst snd] in *.
  replace (a + 2) with (a + 1 + 1) by lia.
  apply binary_normalize_mag; [|lia].
  replace (cond_Zopp sx (Z.pos mx') - cond_Zopp sy (Z.pos my'))
    with (cond_Zopp sx (Z.pos mx') + cond_Zopp (negb sy) (Z.pos my'))
    by (destruct sy; cbn [cond_Zopp negb]; lia).
  apply aligned_sum_digits; lia.
Qed.

Lemma sub_mag (a : Z) (x y : float) :
  mag_le a x = true -> mag_le a y = true -> -1074 <= a <= 970 ->
  mag_le (a + 2) (x - y) = true.
Proof. unfold mag_le. rewrite sub_spec. apply SFsub_mag. Qed.

(** *** Division of two [int]s *)

Lemma is_infinity_mag (k : Z) (x : float) : mag_le k x = true -> is_infinity x = false.
Proof.
  unfold mag_le, is_infinity. rewrite FloatAxioms.eqb_spec, abs_spec.
  change (Prim2SF infinity) with (S754_infinity false).
  destruct (Prim2SF x) as [s|s| |s m e]; try discriminate; reflexivity.
Qed.

Lemma SFdiv_core_ints (m1 m2 : positive) (q e' : Z) (l : location) :
  SFdiv_core_binary prec emax (Z.pos m1) 0 (Z.pos m2) 0 = (q, e', l) ->
  0 <= q /\ e' <= 0 /\
  e' <= fexp prec emax (Zdigits2 q + e') /\
  Zdigits2 q + e' <= Z.max 0 (Zdigits2 (Z.pos m1) - Zdigits2 (Z.pos m2) + 1).
Proof.
  unfold SFdiv_core_binary.
  set (d1 := Zdigits2 (Z.pos m1)). set (d2 := Zdigits2 (Z.pos m2)).
  change (IntDef.Z.sub 0 0) with 0.
  change (IntDef.Z.add ?u 0) with (u + 0).
  change (IntDef.Z.sub (d1 + 0) (d2 + 0)) with (d1 + 0 - (d2 + 0)).
  change (IntDef.Z.min ?u 0) with (Z.min u 0).
  set (ez := Z.min (fexp prec emax (d1 + 0 - (d2 + 0))) 0).
  change (IntDef.Z.sub 0 ez) with (0 - ez).
  set (m' := match 0 - ez with Z.pos _ => _ | 0 => _ | Z.neg _ => _ end).
  assert (Hez : ez <= 0) by (subst ez; lia).
  assert (Hm' : m' = Z.pos m1 * 2 ^ (- ez)).
  { subst m'. destruct (0 - ez) as [|s|s] eqn:Hs; try lia.
    - replace (- ez) with 0 by lia. change (Z.pos m1 = Z.pos m1 * 1). lia.
    - change (IntDef.Z.shiftl (Z.pos m1) (Z.pos s)) with (Z.shiftl (Z.pos m1) (Z.pos s)).
      rewrite Z.shiftl_mul_pow2 by lia. do 2 f_equal. lia. }
  clearbody m'.
  change (IntDef.Z.div_eucl m' (Z.pos m2)) with (Z.div_eucl m' (Z.pos m2)).
  pose proof (Z.div_eucl_eq m' (Z.pos m2) ltac:(lia)) as Heq.
  pose proof (Z.mod_pos_bound m' (Z.pos m2) ltac:(lia)) as Hmod.
  unfold Z.modulo in Hmod.
  destruct (Z.div_eucl m' (Z.pos m2)) as [q0 r0]. intros [= <- <- <-].
  pose proof (Zdigits2_bounds (Z.pos m1) ltac:(lia)) as [Hl1 Hu1].
  pose proof (Zdigits2_bounds (Z.pos m2) ltac:(lia)) as [Hl2 Hu2].
  fold d1 in Hl1, Hu1. fold d2 in Hl2, Hu2.
  assert (Hd1 : 0 < d1) by (apply Zdigits2_pos; lia).
  assert (Hd2 : 0 < d2) by (apply Zdigits2_pos; lia).
  assert (Hp : 0 < 2 ^ (- ez)) by (apply Z.pow_pos_nonneg; lia).
  assert (Hq : 0 <= q0) by nia.
  split; [exact Hq|]. split; [exact Hez|].
  (* the quotient has at least [d1 - ez - d2] digits *)
  assert (Hlow : d1 - ez - d2 <= Zdigits2 q0).
  { destruct (Z.le_gt_cases 0 (d1 - 1 - ez - d2)) as [Hge|Hlt];
      [|pose proof (Zdigits2_nonneg q0); lia].
    assert (d1 - 1 - ez - d2 + 1 <= Zdigits2 q0); [|lia].
    apply Zdigits2_ge; [lia|].
    assert (Hpow : 2 ^ (d1 - 1 - ez - d2) * 2 ^ d2 = 2 ^ (d1 - 1) * 2 ^ (- ez)).
    { rewrite <- !Z.pow_add_r by lia. f_equal. lia. }
    assert (0 < 2 ^ (d1 - 1 - ez - d2)) by (apply Z.pow_pos_nonneg; lia).
    nia. }
  (* and at most [d1 - ez - d2 + 1] *)
  assert (Hup : q0 = 0 \/ Zdigits2 q0 <= d1 - ez - d2 + 1).
  { destruct (Z.eq_dec q0 0) as [Hz|Hnz]; [left; exact Hz|right].
    assert (Hm2m' : Z.pos m2 <= m') by nia.
    assert (Hlt : 2 ^ (d2 - 1) < 2 ^ d1 * 2 ^ (- ez)) by nia.
    rewrite <- Z.pow_add_r in Hlt by lia.
    apply Z.pow_lt_mono_r_iff in Hlt; [|lia|lia].
    apply Zdigits2_le; [lia|lia|].
    assert (Hpow : 2 ^ (d1 - ez - d2 + 1) * 2 ^ (d2 - 1) = 2 ^ d1 * 2 ^ (- ez)).
    { rewrite <- !Z.pow_add_r by lia. f_equal. lia. }
    assert (0 < 2 ^ (d1 - ez - d2 + 1)) by (apply Z.pow_pos_nonneg; lia).
    nia. }
  split.
  - subst ez. rewrite !fexp_eq in *. lia.
  - destruct Hup as [-> | Hup]; [simpl Zdigits2|]; lia.
Qed.

(** [i / n] for [0 <= i <= n], [n > 0]: a float no larger than 1. *)
Lemma int_truediv_mag (i n : Z) :
  0 <= i <= n -> 0 < n ->
  exists t, int_truediv i n = Some t /\ mag_le 2 t = true.
Proof.
  intros Hi Hn. unfold int_truediv.
  rewrite (proj2 (Z.eqb_neq n 0)) by lia.
  set (q := SFdiv prec emax (Z2SF i) (Z2SF n)).
  assert (Hq : valid_binary q = true /\ sf_mag_le 2 q = true).
  { subst q. destruct n as [|pn|pn]; try lia. destruct i as [|pi|pi]; try lia.
    - split; reflexivity.
    - cbn [Z2SF SFdiv].
      destruct (SFdiv_core_binary prec emax (Z.pos pi) 0 (Z.pos pn) 0) as [[mz ez] lz] eqn:Hcore.
      apply SFdiv_core_ints in Hcore as (Hmz & Hez & Hal & Hd).
      assert (Zdigits2 (Z.pos pi) <= Zdigits2 (Z.pos pn)) by (apply Zdigits2_mono; lia).
      split.
      + now apply binary_round_aux_valid.
      + apply (binary_round_aux_mag _ mz ez lz 1); lia. }
  destruct Hq as [Hvalid Hmag].
  assert (Hm : mag_le 2 (SF2Prim q) = true) by (unfold mag_le; now rewrite Prim2SF_SF2Prim).
  rewrite (is_infinity_mag 2 _ Hm). eauto.
Qed.

(** *** Rounding to an [int] *)

Lemma py_round_defined (k : Z) (x : float) : mag_le k x = true -> is_Some (py_round x).
Proof.
  unfold mag_le, py_round.
  destruct (Prim2SF x) as [s|s| |s m e]; try discriminate; eauto.
Qed.

Lemma in_unit_mag (x : float) : in_unit x = true -> mag_le 1 x = true.
Proof.
  unfold in_unit, mag_le. rewrite andb_true_iff, !FloatAxioms.leb_spec.
  change (Prim2SF 1) with (S754_finite false 4503599627370496 (-52)).
  change (Prim2SF (-1)) with (S754_finite true 4503599627370496 (-52)).
  pose proof (Prim2SF_valid x) as Hv.
  destruct (Prim2SF x) as [s|s| |s m e]; try reflexivity.
  - intros [Hlo Hhi]. destruct s; discriminate.
  - intros [Hlo Hhi]. discriminate.
  - cbn [valid_binary] in Hv. unfold bounded, canonical_mantissa in Hv.
    apply andb_true_iff in Hv as [Hc _].
    change (IntDef.Z.eqb ?u ?v) with (Z.eqb u v) in Hc.
    change (IntDef.Z.add ?u ?v) with (u + v) in Hc.
    apply Z.eqb_eq in Hc. rewrite fexp_eq in Hc.
    cbn [sf_mag_le]. intros [Hlo Hhi]. apply Z.leb_le.
    assert (He : e <= -52); [|lia].
    unfold SFleb, SFcompare in Hlo, Hhi. destruct s.
    + destruct (Z.compare_spec (-52) e); [lia|discriminate|lia].
    + destruct (Z.compare_spec e (-52)); [lia|lia|discriminate].
Qed.

(** *** Bounding an arithmetic expression *)

Lemma add_mag_max (a b : Z) (x y : float) :
  mag_le a x = true -> mag_le b y = true -> -1074 <= Z.max a b <= 970 ->
  mag_le (Z.max a b + 2) (x + y) = true.
Proof.
  intros Hx Hy Hk. apply add_mag; [| |exact Hk]; eapply mag_le_mono; try eassumption; lia.
Qed.

Lemma sub_mag_max (a b : Z) (x y : float) :
  mag_le a x = true -> mag_le b y = true -> -1074 <= Z.max a b <= 970 ->
  mag_le (Z.max a b + 2) (x - y) = true.
Proof.
  intros Hx Hy Hk. apply sub_mag; [| |exact Hk]; eapply mag_le_mono; try eassumption; lia.
Qed.

(** [mag_node] bounds a sum, difference, product or opposite from the
    bounds of its leaves, found among the hypotheses; [mag_bound] then
    compares the bound with the one asked for. *)
Ltac mag_node :=
  lazymatch goal with
  | |- mag_le _ (?x + ?y)%float = true => eapply add_mag_max; [mag_node | mag_node | lia]
  | |- mag_le _ (?x - ?y)%float = true => eapply sub_mag_max; [mag_node | mag_node | lia]
  | |- mag_le _ (?x * ?y)%float = true => eapply mul_mag; [mag_node | mag_node | lia]
  | |- mag_le _ (- ?x)%float = true => rewrite opp_mag; mag_node
  | |- _ => eassumption
  end.

Ltac mag_bound := eapply mag_le_mono; [|mag_node]; lia.
(** ** Projection *)

(** C9: the projection of a rotated point [(x, y, z)] is exactly
    [(COLS/2 + x * ASPECT, ROWS/2 + y)], column first, whatever [z] is. *)
Theorem project_formula (x y z : float) :
  float_of_int COLS = Some COLS_f /\
  float_of_int ROWS = Some ROWS_f /\
  _project x y z = Spec.project COLS_f ROWS_f (x, y, z) /\
  _project x y z = (21 + x * 2.1, 8.5 + y)%float /\
  forall z' : float, _project x y z' = _project x y z.
Proof.
  repeat split; reflexivity.
Qed.

(** ** Angle schedule *)

(** C5: frame [i] of the loop is rendered with [ax = 0.6],
    [ay = t + pi/4], [az = 0.35 t + 0.3] where [t = 2 pi i / NUM_FRAMES];
    frame 0 uses exactly [0.6], [pi/4] and [0.3]. *)
Theorem frame_angles_schedule (i : Z) :
  0 <= i < NUM_FRAMES ->
  float_of_int NUM_FRAMES = Some NUM_FRAMES_f /\
  (exists fi, float_of_int i = Some fi /\
     frame_angles i = Some (Spec.schedule fi NUM_FRAMES_f)) /\
  (forall M : MathLib, _render_frame i =
     '(ax, ay, az) ← frame_angles i; render_at ax ay az) /\
  frame_angles 0 = Some (0.6, math_pi / 4, 0.3)%float.
Proof.
  intros Hi. split; [reflexivity|]. split; [|split; reflexivity].
  destruct (float_of_int_frames i Hi) as [fi Hfi]. exists fi. split; [exact Hfi|].
  unfold frame_angles, Spec.schedule. rewrite Hfi. simpl.
  now rewrite (float_mul_comm 0.35%float).
Qed.

Lemma frame_angles_schedule_witness :
  0 <= 7 < NUM_FRAMES /\
  exists fi, float_of_int 7 = Some fi /\
    frame_angles 7 = Some (Spec.schedule fi NUM_FRAMES_f).
Proof.
  split; [unfold NUM_FRAMES; lia|].
  apply (frame_angles_schedule 7). unfold NUM_FRAMES; lia.
Defined.

(** ** Rotation *)

Lemma vec3_neq (p q : vec3) : Spec.vec3_eqb q q = true -> Spec.vec3_eqb p q = false -> p <> q.
Proof. intros Hq Hp ->. congruence. Qed.

(** C4: [_rot] rotates about X, then about Y, then about Z, each step by
    the right-handed formula (the rows of the textbook rotation matrix);
    taking the three rotations in any other order gives another point. *)
Theorem rot_x_then_y_then_z :
  (forall (M : MathLib) (x y z ax ay az : float),
      _rot x y z ax ay az =
        steps ← Spec.with_trig ax ay az [Spec.AxisX; Spec.AxisY; Spec.AxisZ];
        Some (Spec.rot_seq steps (x, y, z))) /\
  (forall (a : Spec.axis) (s c : Z) (v : Z * Z * Z),
      Spec.rot_about Spec.Z_arith a s c v = Spec.mat_vec (Spec.rotation_matrix a s c) v) /\
  (forall o : list Spec.axis,
      o ∈ permutations [Spec.AxisX; Spec.AxisY; Spec.AxisZ] ->
      o <> [Spec.AxisX; Spec.AxisY; Spec.AxisZ] ->
      @_rot taylor_math 4.2 4.2 4.2 0.6 (math_pi / 4) 0.3 <>
        (steps ← @Spec.with_trig taylor_math 0.6 (math_pi / 4) 0.3 o;
         Some (Spec.rot_seq steps (4.2, 4.2, 4.2)%float))).
Proof.
  split; [|split].
  - intros M x y z ax ay az. unfold _rot, Spec.with_trig. simpl.
    destruct (math_sin ax), (math_cos ax); simpl; try reflexivity.
    destruct (math_sin ay), (math_cos ay); simpl; try reflexivity.
    destruct (math_sin az), (math_cos az); simpl; reflexivity.
  - intros a s c [[x y] z]. destruct a; cbn; (f_equal; [f_equal|]); ring.
  - intros o Ho Hne.
    assert (Hperm : permutations [Spec.AxisX; Spec.AxisY; Spec.AxisZ] =
              [[Spec.AxisX; Spec.AxisY; Spec.AxisZ]; [Spec.AxisY; Spec.AxisX; Spec.AxisZ];
               [Spec.AxisY; Spec.AxisZ; Spec.AxisX]; [Spec.AxisX; Spec.AxisZ; Spec.AxisY];
               [Spec.AxisZ; Spec.AxisX; Spec.AxisY]; [Spec.AxisZ; Spec.AxisY; Spec.AxisX]])
      by reflexivity.
    rewrite Hperm in Ho.
    repeat (apply elem_of_cons in Ho as [-> | Ho]); try contradiction;
      try (apply elem_of_nil in Ho; contradiction);
      intros Heq; apply (f_equal (fun r => match r with Some p => p | None => (0, 0, 0)%float end)) in Heq;
      revert Heq; apply vec3_neq; vm_compute; reflexivity.
Qed.

(** ** Visibility *)

(** C1, as the code has it: with zero rotation the cube is seen face-on,
    so exactly 1 of the 6 faces passes the visibility test, the front face
    [(4, 5, 6, 7)] in the plane [z = +1], and exactly 4 of the 12 edges are
    selected for drawing, the four sides of that face. *)
Theorem zero_rotation_one_face_four_edges :
  Spec.zero_rotation_counts 1 4 /\
  Spec.zero_rotation_view [Spec.front_face] (Spec.boundary Spec.front_face) /\
  Spec.front_face ∈ _FACES /\
  Spec.face_in_plane_z Spec.front_face 1.
Proof.
  split; [|split; [|split]].
  - intros M Hs Hc.
    unfold _VERTS.
    cbn [for_each]. unfold transform_step, _rot. rewrite Hs, Hc.
    eexists _, _. split; [vm_compute; reflexivity|].
    split; [|split]; vm_compute; reflexivity.
  - intros M Hs Hc.
    unfold _VERTS.
    cbn [for_each]. unfold transform_step, _rot. rewrite Hs, Hc.
    eexists _, _. split; [vm_compute; reflexivity|].
    split; [|split]; vm_compute; reflexivity.
  - unfold _FACES, Spec.front_face. set_solver.
  - intros i Hi.
    repeat (apply elem_of_cons in Hi as [-> | Hi]); [..|inversion Hi];
      cbn; eauto.
Qed.

Lemma zero_rotation_one_face_four_edges_witness :
  @math_sin taylor_math 0 = Some 0%float /\
  @math_cos taylor_math 0 = Some 1%float /\
  exists verts_3d,
    Spec.scaled_verts = Some verts_3d /\
    Spec.count_visible_faces verts_3d = 1%nat /\
    Spec.count_selected_edges verts_3d = Some 4%nat /\
    Spec.visible_faces verts_3d = [(4, 5, 6, 7)%nat] /\
    Spec.selected_edges verts_3d = Some [(4, 5); (5, 6); (6, 7); (7, 4)]%nat.
Proof.
  split; [reflexivity|]. split; [reflexivity|].
  destruct zero_rotation_one_face_four_edges as (Hcounts & Hview & _).
  destruct (Hcounts taylor_math) as (v3 & v2 & _ & Hv & Hf & He); [reflexivity..|].
  destruct (Hview taylor_math) as (v3' & v2' & _ & Hv' & Hf' & He'); [reflexivity..|].
  assert (v3' = v3) as -> by congruence.
  exists v3. auto.
Defined.

(** C1, as the specification has it (3 faces and 9 edges), fails. *)
Lemma zero_rotation_not_three_faces_nine_edges : ~ Spec.zero_rotation_counts 3 9.
Proof.
  intros H.
  destruct (H taylor_math) as (v3 & v2 & _ & Hv & Hf & _); [reflexivity..|].
  vm_compute in Hv. injection Hv as <-. vm_compute in Hf. discriminate.
Qed.

Lemma ltb_zero_strictly_positive (x : float) :
  (0 <? x)%float = true <-> Spec.strictly_positive x.
Proof.
  rewrite FloatAxioms.ltb_spec. unfold Spec.strictly_positive.
  change (Prim2SF 0) with (S754_zero false).
  destruct (Prim2SF x) as [s|s| |s m e]; try destruct s; simpl; intuition discriminate.
Qed.

Lemma eqb_zero_not_positive (x : float) :
  (x =? 0)%float = true -> (0 <? x)%float = false.
Proof.
  rewrite FloatAxioms.eqb_spec, FloatAxioms.ltb_spec.
  change (Prim2SF 0) with (S754_zero false).
  destruct (Prim2SF x) as [s|s| |s m e]; try destruct s; simpl; intuition discriminate.
Qed.

Lemma face_visible_normal (verts_3d : list vec3) (a b c d : nat) (va vb vc : vec3) :
  verts_3d !! a = Some va -> verts_3d !! b = Some vb -> verts_3d !! c = Some vc ->
  _face_visible verts_3d (a, b, c, d) = Some (0 <? Spec.normal_z va vb vc)%float.
Proof.
  intros Ha Hb Hc. unfold _face_visible. cbn beta iota.
  rewrite Ha, Hb, Hc.
  destruct va as [[? ?] ?], vb as [[? ?] ?], vc as [[? ?] ?]. reflexivity.
Qed.

(** The table [_FACE_EDGES] lists, for each face of [_FACES], its four
    sides as unordered pairs. *)
Lemma face_edges_are_boundaries (fi : nat) (f : face) (es : gset edge) (e : edge) :
  _FACES !! fi = Some f -> _FACE_EDGES !! fi = Some es ->
  (e ∈ es \/ (e.2, e.1) ∈ es) <-> Spec.on_boundary e f.
Proof.
  intros Hf Hes. destruct e as [i0 i1]. unfold Spec.on_boundary.
  do 6 (destruct fi as [|fi];
        [ cbn in Hf, Hes; simplify_eq; cbn [Spec.boundary fst snd];
          set_unfold; naive_solver |]).
  discriminate.
Qed.

Lemma cull_fold (verts_3d : list vec3) (l : list (nat * face)) (ve : gset edge) :
  Forall (fun p => is_Some (_face_visible verts_3d p.2) /\ is_Some (_FACE_EDGES !! p.1)) l ->
  exists ve',
    for_each (cull_step verts_3d) l ve = Some ve' /\
    forall e, e ∈ ve' <->
      e ∈ ve \/ exists fi f es, (fi, f) ∈ l /\ _face_visible verts_3d f = Some true /\
                               _FACE_EDGES !! fi = Some es /\ e ∈ es.
Proof.
  intros Hl. revert ve. induction Hl as [|[fi f] l [[vis Hvis] [es Hes]] _ IH]; intros ve.
  - exists ve. split; [reflexivity|]. intros e. split; [auto|].
    intros [He|(fi & f & es & Hin & _)]; [exact He|]. inversion Hin.
  - cbn [for_each cull_step]. cbn in Hvis, Hes. rewrite Hvis. cbn. destruct vis.
    + rewrite Hes. cbn. destruct (IH (ve ∪ es)) as (ve' & -> & Hve'). exists ve'.
      split; [reflexivity|]. intros e. rewrite Hve', elem_of_union. split.
      * intros [[He|He]|(fi' & f' & es' & Hin & H)]; [auto|right..].
        -- exists fi, f, es. rewrite elem_of_cons. auto.
        -- exists fi', f', es'. rewrite elem_of_cons. auto.
      * intros [He|(fi' & f' & es' & Hin & Hv & Hes' & He)]; [auto|].
        apply elem_of_cons in Hin as [Heq|Hin].
        -- injection Heq as -> ->. assert (es' = es) as -> by congruence. auto.
        -- right. exists fi', f', es'. auto.
    + destruct (IH ve) as (ve' & -> & Hve'). exists ve'.
      split; [reflexivity|]. intros e. rewrite Hve'. split.
      * intros [He|(fi' & f' & es' & Hin & H)]; [auto|right].
        exists fi', f', es'. rewrite elem_of_cons. auto.
      * intros [He|(fi' & f' & es' & Hin & Hv & Hes' & He)]; [auto|].
        apply elem_of_cons in Hin as [Heq|Hin].
        -- injection Heq as -> ->. congruence.
        -- right. exists fi', f', es'. auto.
Qed.

Lemma face_vertices_defined (verts_3d : list vec3) (f : face) :
  length verts_3d = 8%nat -> f ∈ _FACES ->
  exists a b c, verts_3d !! f.1.1.1 = Some a /\ verts_3d !! f.1.1.2 = Some b /\
                verts_3d !! f.1.2 = Some c.
Proof.
  intros Hlen Hf.
  do 9 (destruct verts_3d as [|? verts_3d]; try discriminate).
  unfold _FACES in Hf.
  repeat (apply elem_of_cons in Hf as [-> | Hf]); [..|inversion Hf];
    cbn; eauto 10.
Qed.

Lemma edge_selected_spec (ve : gset edge) (e : edge) :
  edge_selected ve e = true <-> e ∈ ve \/ (e.2, e.1) ∈ ve.
Proof.
  destruct e as [i0 i1]. unfold edge_selected. cbn [fst snd].
  rewrite negb_true_iff, andb_false_iff, !bool_decide_eq_false.
  split; (intros [H|H]; [left|right]); try (apply dec_stable; exact H); auto.
Qed.

Lemma face_visible_defined (verts_3d : list vec3) (f : face) :
  length verts_3d = 8%nat -> f ∈ _FACES ->
  exists a b c,
    verts_3d !! f.1.1.1 = Some a /\ verts_3d !! f.1.1.2 = Some b /\
    verts_3d !! f.1.2 = Some c /\
    _face_visible verts_3d f = Some (0 <? Spec.normal_z a b c)%float.
Proof.
  intros Hlen Hf.
  destruct (face_vertices_defined verts_3d f Hlen Hf) as (a & b & c & Ha & Hb & Hc).
  exists a, b, c. repeat split; try assumption.
  destruct f as [[[ia ib] ic] id]. now apply face_visible_normal.
Qed.

Lemma enumerated_face (fi : nat) (f : face) :
  (fi, f) ∈ zip (seq 0 (length _FACES)) _FACES <-> _FACES !! fi = Some f.
Proof.
  split.
  - intros Hp. cbn in Hp.
    repeat (apply elem_of_cons in Hp as [[= -> ->] | Hp]); [..|inversion Hp]; reflexivity.
  - intros Hf.
    do 6 (destruct fi as [|fi]; [cbn in Hf; simplify_eq; cbn; set_solver|]). discriminate.
Qed.

(** The set built by the culling loop: the edges listed for the visible
    faces, that is, the sides of the visible faces. *)
Lemma visible_edge_set_spec (verts_3d : list vec3) :
  length verts_3d = 8%nat ->
  exists visible_edges,
    visible_edge_set verts_3d = Some visible_edges /\
    forall e, edge_selected visible_edges e = true <->
      exists f, f ∈ _FACES /\ _face_visible verts_3d f = Some true /\ Spec.on_boundary e f.
Proof.
  intros Hlen.
  destruct (cull_fold verts_3d (zip (seq 0 (length _FACES)) _FACES) ∅) as (ve & Hve & Hin).
  { apply Forall_forall. intros [fi f] Hp. cbn [fst snd].
    apply enumerated_face in Hp. split.
    - destruct (face_visible_defined verts_3d f) as (a & b & c & _ & _ & _ & ->); [exact Hlen| |eauto].
      eapply list_elem_of_lookup_2; eassumption.
    - apply lookup_lt_is_Some. apply lookup_lt_Some in Hp. exact Hp. }
  exists ve. split; [exact Hve|].
  intros e. rewrite edge_selected_spec, !Hin. split.
  - intros [[He|(fi & f & es & Hp & Hv & Hes & He)]|[He|(fi & f & es & Hp & Hv & Hes & He)]];
      try (now apply not_elem_of_empty in He);
      apply enumerated_face in Hp;
      exists f; (split; [eapply list_elem_of_lookup_2; eassumption|]); (split; [exact Hv|]);
      apply (face_edges_are_boundaries fi f es e Hp Hes); auto.
  - intros (f & Hf & Hv & Hb).
    apply list_elem_of_lookup_1 in Hf as [fi Hf].
    destruct (_FACE_EDGES !! fi) as [es|] eqn:Hes.
    2:{ apply lookup_lt_Some in Hf. apply lookup_ge_None in Hes. cbn in Hf, Hes. lia. }
    assert (Hp : (fi, f) ∈ zip (seq 0 (length _FACES)) _FACES) by now apply enumerated_face.
    destruct (proj2 (face_edges_are_boundaries fi f es e Hf Hes) Hb) as [He|He];
      [left|right]; right; exists fi, f, es; auto.
Qed.

Lemma edge_loop_draws_selected (verts_2d : list vec2) (ve : gset edge)
    (l : list edge) (cv : canvas) :
  for_each (edge_step verts_2d ve) l cv =
  for_each (Spec.draw_edge verts_2d) (filter (fun e => edge_selected ve e = true) l) cv.
Proof.
  revert cv. induction l as [|e l IH]; intros cv; [reflexivity|].
  rewrite filter_cons. cbn [for_each]. unfold edge_step at 1.
  destruct (edge_selected ve e) eqn:He.
  - rewrite decide_True by reflexivity. cbn [for_each].
    assert (Hstep : (let '(i0, i1) := e in
                     '(c0, r0) ← verts_2d !! i0; '(c1, r1) ← verts_2d !! i1;
                     _draw_line cv c0 r0 c1 r1) = Spec.draw_edge verts_2d cv e)
      by (destruct e; reflexivity).
    rewrite Hstep. destruct (Spec.draw_edge verts_2d cv e); [apply IH|reflexivity].
  - rewrite decide_False by discriminate. apply IH.
Qed.

(** C2: a face is visible exactly when the Z-component of the cross
    product of its first two edge vectors is strictly positive (a zero of
    either sign is not visible), and an edge is drawn exactly when it is a
    side of at least one visible face: the edge loop of the renderer calls
    [_draw_line] on those edges of [_EDGES], once each and in table order,
    and on no other edge. *)
Theorem culling_exact (verts_3d : list vec3) :
  length verts_3d = 8%nat ->
  (forall f, f ∈ _FACES ->
     exists a b c,
       verts_3d !! f.1.1.1 = Some a /\ verts_3d !! f.1.1.2 = Some b /\
       verts_3d !! f.1.2 = Some c /\
       (_face_visible verts_3d f = Some true <->
          Spec.strictly_positive (Spec.normal_z a b c)) /\
       (_face_visible verts_3d f = Some false <->
          ~ Spec.strictly_positive (Spec.normal_z a b c)) /\
       ((Spec.normal_z a b c =? 0)%float = true -> _face_visible verts_3d f = Some false)) /\
  exists visible_edges,
    visible_edge_set verts_3d = Some visible_edges /\
    (forall e, edge_selected visible_edges e = true <->
       exists f, f ∈ _FACES /\ _face_visible verts_3d f = Some true /\ Spec.on_boundary e f) /\
    exists drawn,
      Spec.selected_edges verts_3d = Some drawn /\
      sublist drawn _EDGES /\
      (forall e, e ∈ drawn <->
         e ∈ _EDGES /\
         exists f, f ∈ _FACES /\ _face_visible verts_3d f = Some true /\ Spec.on_boundary e f) /\
      forall verts_2d,
        (forall cv, for_each (edge_step verts_2d visible_edges) _EDGES cv =
                    for_each (Spec.draw_edge verts_2d) drawn cv) /\
        rasterize verts_3d verts_2d =
          (cv ← for_each (Spec.draw_edge verts_2d) drawn blank_canvas;
           cv ← for_each vertex_step verts_2d cv;
           Some (join_rows cv)).
Proof.
  intros Hlen. split.
  - intros f Hf.
    destruct (face_visible_defined verts_3d f Hlen Hf) as (a & b & c & Ha & Hb & Hc & Hv).
    exists a, b, c. repeat split; try assumption; rewrite Hv.
    + intros [= H]. now apply ltb_zero_strictly_positive.
    + intros H. f_equal. now apply ltb_zero_strictly_positive.
    + intros [= H] Hp. apply ltb_zero_strictly_positive in Hp. congruence.
    + intros H. f_equal. apply not_true_is_false. intros Hp. apply H.
      now apply ltb_zero_strictly_positive.
    + intros H. f_equal. now apply eqb_zero_not_positive.
  - destruct (visible_edge_set_spec verts_3d Hlen) as (ve & Hve & Hsel).
    exists ve. split; [exact Hve|]. split; [exact Hsel|].
    exists (filter (fun e => edge_selected ve e = true) _EDGES).
    split; [unfold Spec.selected_edges; now rewrite Hve|].
    split; [apply sublist_filter|]. split.
    + intros e. rewrite list_elem_of_filter, Hsel. tauto.
    + intros verts_2d. split.
      * intros cv. apply edge_loop_draws_selected.
      * unfold rasterize. rewrite Hve. cbn [mbind option_bind].
        now rewrite edge_loop_draws_selected.
Qed.

Lemma culling_exact_witness :
  length (default [] Spec.scaled_verts) = 8%nat /\
  exists visible_edges drawn,
    visible_edge_set (default [] Spec.scaled_verts) = Some visible_edges /\
    Spec.selected_edges (default [] Spec.scaled_verts) = Some drawn /\
    (forall e, e ∈ drawn <->
       e ∈ _EDGES /\
       exists f, f ∈ _FACES /\
         _face_visible (default [] Spec.scaled_verts) f = Some true /\ Spec.on_boundary e f) /\
    forall verts_2d cv,
      for_each (edge_step verts_2d visible_edges) _EDGES cv =
      for_each (Spec.draw_edge verts_2d) drawn cv.
Proof.
  split; [reflexivity|].
  destruct (culling_exact (default [] Spec.scaled_verts)) as
    (_ & ve & Hve & _ & drawn & Hsel & _ & Hdrawn & Hloop); [reflexivity|].
  exists ve, drawn. split; [exact Hve|]. split; [exact Hsel|]. split; [exact Hdrawn|].
  intros verts_2d cv. apply (Hloop verts_2d).
Defined.

(** ** Line drawing *)

Lemma pick_char_glyph (sc sr : Z) : pick_char sc sr = Spec.glyph sc sr.
Proof.
  unfold pick_char, Spec.glyph.
  destruct (Z.eqb_spec sr 0) as [->|Hr]; [reflexivity|].
  rewrite decide_False by exact Hr.
  destruct (Z.eqb_spec sc 0) as [->|Hc]; [reflexivity|].
  rewrite decide_False by exact Hc.
  destruct (Z.ltb_spec 0 sc), (Z.ltb_spec 0 sr), (Z.ltb_spec sc 0), (Z.ltb_spec sr 0);
    cbn; case_decide; try reflexivity; lia.
Qed.

(** One turn of the sampling loop, seen through [Spec.sample] and
    [Spec.plot]. *)
Lemma line_step_sample (c0 r0 c1 r1 : float) (ic0 ir0 ic1 ir1 steps : Z)
    (cv : canvas) (prev : Z * Z) (i : Z) :
  line_step c0 r0 c1 r1 ic0 ir0 ic1 ir1 steps (cv, prev.1, prev.2) i =
    p ← Spec.sample c0 r0 c1 r1 steps i;
    let d := if i =? 0 then Spec.delta (ic0, ir0) (ic1, ir1) else Spec.delta prev p in
    cv' ← Spec.plot cv p (Spec.glyph d.1 d.2);
    Some (cv', p.1, p.2).
Proof.
  unfold line_step, Spec.sample.
  destruct (int_truediv i steps) as [t|]; [|reflexivity]. cbn.
  destruct (py_round (c0 + t * (c1 - c0))) as [c|]; [|reflexivity]. cbn.
  destruct (py_round (r0 + t * (r1 - r0))) as [r|]; [|reflexivity]. cbn.
  destruct (in_grid r c); [|reflexivity].
  destruct (i =? 0); cbn; now rewrite pick_char_glyph.
Qed.

(** The loop after its first turn: every index is non-zero, so every
    direction is taken from the previous sample. *)
Lemma line_loop_tail (c0 r0 c1 r1 : float) (ic0 ir0 ic1 ir1 steps : Z) (idx : list Z) :
  Forall (fun i => i <> 0) idx ->
  forall (cv : canvas) (prev : Z * Z),
    (st ← for_each (line_step c0 r0 c1 r1 ic0 ir0 ic1 ir1 steps) idx (cv, prev.1, prev.2);
     Some st.1.1) =
      (pts ← mapM (Spec.sample c0 r0 c1 r1 steps) idx;
       for_each (fun cv pg => Spec.plot cv pg.1 pg.2)
         (zip pts (map (fun d => Spec.glyph d.1 d.2)
                     (zip_with Spec.delta (prev :: pts) pts))) cv).
Proof.
  induction 1 as [|i idx Hi _ IH]; intros cv prev.
  - reflexivity.
  - cbn [for_each]. rewrite line_step_sample.
    rewrite (proj2 (Z.eqb_neq i 0) Hi).
    cbn [mapM]. destruct (Spec.sample c0 r0 c1 r1 steps i) as [p|]; [|reflexivity].
    cbn. destruct (Spec.plot cv p _) as [cv1|] eqn:Hplot.
    + cbn. rewrite (IH cv1 p).
      destruct (mapM (Spec.sample c0 r0 c1 r1 steps) idx) as [pts|]; [|reflexivity].
      cbn. now rewrite Hplot.
    + cbn. destruct (mapM (Spec.sample c0 r0 c1 r1 steps) idx) as [pts|]; [|reflexivity].
      cbn. now rewrite Hplot.
Qed.

Lemma draw_line_eq_spec (cv : canvas) (c0 r0 c1 r1 : float) :
  _draw_line cv c0 r0 c1 r1 = Spec.draw_line cv c0 r0 c1 r1.
Proof.
  unfold _draw_line, Spec.draw_line.
  destruct (py_round c0) as [ic0|]; [|reflexivity]. cbn.
  destruct (py_round r0) as [ir0|]; [|reflexivity]. cbn.
  destruct (py_round c1) as [ic1|]; [|reflexivity]. cbn.
  destruct (py_round r1) as [ir1|]; [|reflexivity]. cbn.
  set (steps := Z.max (Z.abs (ic1 - ic0)) (Z.abs (ir1 - ir0))).
  destruct (Z.eqb_spec steps 0) as [Hz|Hnz].
  - rewrite decide_True by exact Hz. reflexivity.
  - rewrite decide_False by exact Hnz.
    assert (Hsteps : 0 < steps) by lia.
    rewrite (seqZ_cons 0 (steps + 1)) by lia.
    cbn [for_each mapM].
    pose proof (line_step_sample c0 r0 c1 r1 ic0 ir0 ic1 ir1 steps cv (ic0, ir0) 0) as H0.
    cbn [fst snd Z.eqb] in H0. rewrite H0. clear H0.
    destruct (Spec.sample c0 r0 c1 r1 steps 0) as [[pc pr]|]; [|reflexivity].
    cbn -[Spec.plot].
    destruct (Spec.plot cv (pc, pr) _) as [cv1|] eqn:Hplot; cbn -[Spec.plot].
    + assert (Htail : Forall (fun i => i <> 0) (seqZ (Z.succ 0) (Z.pred (steps + 1))))
        by (apply Forall_seqZ; lia).
      pose proof (line_loop_tail c0 r0 c1 r1 ic0 ir0 ic1 ir1 steps _ Htail cv1 (pc, pr))
        as Hloop.
      cbn [fst snd] in Hloop. rewrite Hloop.
      destruct (mapM _ _) as [pts|]; [|reflexivity]. cbn -[Spec.plot].
      now rewrite Hplot.
    + destruct (mapM _ _) as [pts|]; [|reflexivity]. cbn -[Spec.plot].
      now rewrite Hplot.
Qed.

(** ** Points off the grid *)

Lemma py_index_nonneg (n : nat) (i : Z) (k : nat) :
  0 <= i -> py_index n i = Some k -> k = Z.to_nat i /\ (k < n)%nat.
Proof.
  intros Hi. unfold py_index.
  destruct (Z.leb_spec 0 i); [|lia].
  destruct (Z.ltb_spec i (Z.of_nat n)); cbn.
  - intros [= <-]. lia.
  - destruct (Z.ltb_spec i 0); [lia|]. rewrite andb_false_r. discriminate.
Qed.

(** A write lands on the addressed cell and replaces its content. *)
Lemma set_cell_overwrites (cv cv' : canvas) (r c : Z) (ch : ascii) :
  0 <= r -> 0 <= c -> set_cell cv r c ch = Some cv' ->
  Spec.cell cv' r c = Some ch.
Proof.
  intros Hr Hc. unfold set_cell, Spec.cell.
  destruct (py_index (length cv) r) as [ri|] eqn:Hri; [|discriminate]. cbn.
  apply py_index_nonneg in Hri as [-> Hri]; [|exact Hr].
  destruct (cv !! Z.to_nat r) as [row|] eqn:Hrow; [|discriminate]. cbn.
  destruct (py_index (length row) c) as [ci|] eqn:Hci; [|discriminate]. cbn.
  apply py_index_nonneg in Hci as [-> Hci]; [|exact Hc].
  intros [= <-].
  rewrite list_lookup_insert_eq by lia. cbn.
  now apply list_lookup_insert_eq.
Qed.

(** C8: a rasterised point whose rounded coordinates fall off the grid
    is skipped: the canvas comes back unchanged (so no cell is written,
    not even by wrapping round through a negative index) and nothing is
    raised.  This holds for the ["+"] marker, for a line sample and for a
    vertex marker. *)
Theorem off_grid_points_skipped (cv : canvas) :
  (forall (c0 r0 c1 r1 : float) (ic ir : Z),
      py_round c0 = Some ic -> py_round r0 = Some ir ->
      py_round c1 = Some ic -> py_round r1 = Some ir ->
      in_grid ir ic = false ->
      _draw_line cv c0 r0 c1 r1 = Some cv) /\
  (forall (c0 r0 c1 r1 : float) (ic0 ir0 ic1 ir1 steps prev_c prev_r i c r : Z),
      Spec.sample c0 r0 c1 r1 steps i = Some (c, r) ->
      in_grid r c = false ->
      line_step c0 r0 c1 r1 ic0 ir0 ic1 ir1 steps (cv, prev_c, prev_r) i =
        Some (cv, c, r)) /\
  (forall (sc sr : float) (c r : Z),
      py_round sc = Some c -> py_round sr = Some r ->
      in_grid r c = false ->
      vertex_step cv (sc, sr) = Some cv) /\
  (forall (p : Z * Z) (ch : ascii),
      in_grid p.2 p.1 = false -> Spec.plot cv p ch = Some cv).
Proof.
  repeat split.
  - intros c0 r0 c1 r1 ic ir Hc0 Hr0 Hc1 Hr1 Hout. unfold _draw_line.
    rewrite Hc0, Hr0, Hc1, Hr1. cbn.
    rewrite !Z.sub_diag. cbn. now rewrite Hout.
  - intros c0 r0 c1 r1 ic0 ir0 ic1 ir1 steps prev_c prev_r i c r Hs Hout.
    pose proof (line_step_sample c0 r0 c1 r1 ic0 ir0 ic1 ir1 steps cv (prev_c, prev_r) i) as H.
    cbn [fst snd] in H. rewrite H, Hs. cbn. now rewrite Hout.
  - intros sc sr c r Hc Hr Hout. unfold vertex_step. rewrite Hc, Hr. cbn. now rewrite Hout.
  - intros [c r] ch Hout. cbn in *. now rewrite Hout.
Qed.

(** Without the guard a negative index would wrap round to the far edge
    of the canvas, and an index past the edge would raise. *)
Lemma set_cell_unguarded :
  set_cell blank_canvas (-1) (-1) "o"%char =
    Some (<[16%nat := <[41%nat := "o"%char]> (replicate 42 " "%char)]> blank_canvas) /\
  set_cell blank_canvas 17 0 "o"%char = None /\
  set_cell blank_canvas 0 42 "o"%char = None.
Proof. repeat split. Qed.

Lemma off_grid_points_skipped_witness :
  vertex_step blank_canvas (-3.2, 17.5)%float = Some blank_canvas /\
  _draw_line blank_canvas 50.2 3 49.8 3.3 = Some blank_canvas.
Proof.
  split.
  - apply (off_grid_points_skipped blank_canvas) with (c := -3) (r := 18); reflexivity.
  - apply (off_grid_points_skipped blank_canvas) with (ic := 50) (ir := 3); reflexivity.
Defined.

(** C3: [_draw_line] rounds both endpoints, takes
    [steps = max(|dc|, |dr|)] of the rounded deltas, plots a single ["+"]
    when [steps = 0], and otherwise plots the [steps + 1] samples
    interpolated from the unrounded endpoints, each with the glyph of its
    local direction (flat ["-"], upright ["|"], same signs ["\"], opposite
    signs ["/"]): it is the line drawer of the specification, and each
    write replaces what the cell held. *)
Theorem draw_line_refines_spec (cv : canvas) (c0 r0 c1 r1 : float) :
  _draw_line cv c0 r0 c1 r1 = Spec.draw_line cv c0 r0 c1 r1 /\
  (forall sc sr : Z, pick_char sc sr = Spec.glyph sc sr) /\
  (forall (p : Z * Z) (ch : ascii) (cv' : canvas),
      in_grid p.2 p.1 = true -> Spec.plot cv p ch = Some cv' ->
      Spec.cell cv' p.2 p.1 = Some ch).
Proof.
  split; [apply draw_line_eq_spec|]. split; [apply pick_char_glyph|].
  intros [c r] ch cv' Hin. cbn [fst snd] in *. unfold Spec.plot. rewrite Hin.
  unfold in_grid in Hin. apply andb_true_iff in Hin as [Hr Hc].
  apply andb_true_iff in Hr as [Hr _]. apply andb_true_iff in Hc as [Hc _].
  apply Z.leb_le in Hr, Hc. now apply set_cell_overwrites.
Qed.

(** ** Every frame is rendered *)

(** A loop whose body keeps an invariant, indexed by the number of turns
    taken, runs to its end. *)
Lemma for_each_inv {St A : Type} (body : St -> A -> option St)
    (I : nat -> St -> Prop) (xs : list A) (s : St) :
  I 0%nat s ->
  (forall n s x, xs !! n = Some x -> I n s -> exists s', body s x = Some s' /\ I (S n) s') ->
  exists s', for_each body xs s = Some s' /\ I (length xs) s'.
Proof.
  revert I s. induction xs as [|x xs IH]; intros I s H0 Hstep.
  - exists s. split; [reflexivity|exact H0].
  - destruct (Hstep 0%nat s x eq_refl H0) as (s1 & Hs1 & H1).
    cbn [for_each]. rewrite Hs1.
    apply (IH (fun n => I (S n)) s1 H1).
    intros n s2 y Hy. apply (Hstep (S n) s2 y Hy).
Qed.

(** *** Writing on the canvas *)

Lemma in_grid_bounds (r c : Z) : in_grid r c = true <-> (0 <= r < ROWS) /\ (0 <= c < COLS).
Proof.
  unfold in_grid. rewrite !andb_true_iff, !Z.leb_le, !Z.ltb_lt. tauto.
Qed.

Lemma py_index_in_range (n : nat) (i : Z) :
  0 <= i < Z.of_nat n -> py_index n i = Some (Z.to_nat i).
Proof.
  intros Hi. unfold py_index.
  now rewrite (proj2 (Z.leb_le 0 i)), (proj2 (Z.ltb_lt i (Z.of_nat n))) by lia.
Qed.

Lemma set_cell_ok (cv : canvas) (r c : Z) (ch : ascii) :
  canvas_ok cv -> in_grid r c = true -> ch ∈ glyphs ->
  exists cv', set_cell cv r c ch = Some cv' /\ canvas_ok cv'.
Proof.
  intros [[Hrows Hcols] Hgl] Hin Hch.
  apply in_grid_bounds in Hin as [Hr Hc]. unfold ROWS in Hr, Hrows. unfold COLS in Hc, Hcols.
  unfold set_cell. rewrite py_index_in_range by lia. cbn.
  destruct (cv !! Z.to_nat r) as [row|] eqn:Hrow.
  2:{ apply lookup_ge_None in Hrow. lia. }
  cbn. assert (Hlen : length row = Z.to_nat 42).
  { eapply (proj1 (Forall_lookup _ _) Hcols); eassumption. }
  rewrite py_index_in_range by lia. cbn.
  eexists. split; [reflexivity|]. split; [split|].
  - now rewrite length_insert.
  - apply Forall_insert; [exact Hcols|]. now rewrite length_insert.
  - apply Forall_insert; [exact Hgl|]. apply Forall_insert; [|exact Hch].
    eapply (proj1 (Forall_lookup _ _) Hgl); eassumption.
Qed.

Lemma plot_ok (cv : canvas) (p : Z * Z) (ch : ascii) :
  canvas_ok cv -> ch ∈ glyphs ->
  exists cv', Spec.plot cv p ch = Some cv' /\ canvas_ok cv'.
Proof.
  intros Hcv Hch. destruct p as [c r]. unfold Spec.plot.
  destruct (in_grid r c) eqn:Hin; [now apply set_cell_ok|eauto].
Qed.

Lemma glyph_in_glyphs (sc sr : Z) : Spec.glyph sc sr ∈ glyphs.
Proof.
  unfold Spec.glyph, glyphs. repeat case_decide; set_solver.
Qed.

Lemma blank_canvas_ok : canvas_ok blank_canvas.
Proof.
  unfold blank_canvas. split; [split|].
  - apply length_replicate.
  - apply Forall_replicate, length_replicate.
  - apply Forall_replicate, Forall_replicate. set_solver.
Qed.

(** *** Sampling a line *)

Lemma interpolation_mag (c0 c1 t : float) :
  mag_le 20 c0 = true -> mag_le 20 c1 = true -> mag_le 2 t = true ->
  mag_le 27 (c0 + t * (c1 - c0)) = true.
Proof.
  intros H0 H1 Ht.
  apply (add_mag 25); [apply (mag_le_mono 20); [lia|exact H0]| |lia].
  apply (mul_mag 2 22); [exact Ht| |lia].
  apply (sub_mag 20); [exact H1|exact H0|lia].
Qed.

Lemma sample_defined (c0 r0 c1 r1 : float) (steps i : Z) :
  mag_le 20 c0 = true -> mag_le 20 r0 = true ->
  mag_le 20 c1 = true -> mag_le 20 r1 = true ->
  0 <= i <= steps -> 0 < steps ->
  is_Some (Spec.sample c0 r0 c1 r1 steps i).
Proof.
  intros Hc0 Hr0 Hc1 Hr1 Hi Hsteps. unfold Spec.sample.
  destruct (int_truediv_mag i steps Hi Hsteps) as (t & -> & Ht). cbn.
  destruct (py_round_defined 27 (c0 + t * (c1 - c0))) as [c ->];
    [now apply interpolation_mag|]. cbn.
  destruct (py_round_defined 27 (r0 + t * (r1 - r0))) as [r ->];
    [now apply interpolation_mag|]. cbn. eauto.
Qed.

Lemma draw_line_ok (cv : canvas) (c0 r0 c1 r1 : float) :
  canvas_ok cv ->
  mag_le 20 c0 = true -> mag_le 20 r0 = true ->
  mag_le 20 c1 = true -> mag_le 20 r1 = true ->
  exists cv', _draw_line cv c0 r0 c1 r1 = Some cv' /\ canvas_ok cv'.
Proof.
  intros Hcv Hc0 Hr0 Hc1 Hr1. unfold _draw_line.
  destruct (py_round_defined 20 c0 Hc0) as [ic0 ->].
  destruct (py_round_defined 20 r0 Hr0) as [ir0 ->].
  destruct (py_round_defined 20 c1 Hc1) as [ic1 ->].
  destruct (py_round_defined 20 r1 Hr1) as [ir1 ->]. cbn.
  set (steps := Z.max (Z.abs (ic1 - ic0)) (Z.abs (ir1 - ir0))).
  destruct (Z.eqb_spec steps 0) as [Hz|Hnz].
  - destruct (in_grid ir0 ic0) eqn:Hin; [|eauto].
    apply set_cell_ok; [exact Hcv|exact Hin|]. unfold glyphs. set_solver.
  - assert (Hsteps : 0 < steps) by lia.
    destruct (for_each_inv (line_step c0 r0 c1 r1 ic0 ir0 ic1 ir1 steps)
                (fun _ st => canvas_ok st.1.1) (seqZ 0 (steps + 1)) (cv, ic0, ir0))
      as (st & -> & Hst).
    + exact Hcv.
    + intros n [[cv1 pc] pr] i Hi Hcv1. cbn [fst] in Hcv1.
      apply lookup_seqZ in Hi as [-> Hn].
      pose proof (line_step_sample c0 r0 c1 r1 ic0 ir0 ic1 ir1 steps cv1 (pc, pr)
                    (0 + Z.of_nat n)) as Hstep.
      cbn [fst snd] in Hstep. rewrite Hstep.
      destruct (sample_defined c0 r0 c1 r1 steps (0 + Z.of_nat n)) as [p ->]; try assumption;
        [lia|]. cbn -[Spec.plot].
      destruct (plot_ok cv1 p (Spec.glyph
                  (if 0 + Z.of_nat n =? 0 then Spec.delta (ic0, ir0) (ic1, ir1)
                   else Spec.delta (pc, pr) p).1
                  (if 0 + Z.of_nat n =? 0 then Spec.delta (ic0, ir0) (ic1, ir1)
                   else Spec.delta (pc, pr) p).2) Hcv1 (glyph_in_glyphs _ _))
        as (cv2 & -> & Hcv2).
      cbn. eauto.
    + cbn. eauto.
Qed.

Lemma vertex_step_ok (cv : canvas) (p : vec2) :
  canvas_ok cv -> vec2_mag_le 20 p = true ->
  exists cv', vertex_step cv p = Some cv' /\ canvas_ok cv'.
Proof.
  intros Hcv Hp. destruct p as [sc sr]. apply andb_true_iff in Hp as [Hsc Hsr].
  cbn [fst snd] in *. unfold vertex_step.
  destruct (py_round_defined 20 sc Hsc) as [c ->].
  destruct (py_round_defined 20 sr Hsr) as [r ->]. cbn.
  destruct (in_grid r c) eqn:Hin; [|eauto].
  apply set_cell_ok; [exact Hcv|exact Hin|]. unfold glyphs. set_solver.
Qed.

(** *** Transforming the vertices *)

Lemma trig_in_unit_mag `{MathLib} (a : float) :
  trig_in_unit a = true ->
  exists s c, math_sin a = Some s /\ math_cos a = Some c /\
              mag_le 1 s = true /\ mag_le 1 c = true.
Proof.
  unfold trig_in_unit. destruct (math_sin a) as [s|]; [|discriminate].
  destruct (math_cos a) as [c|]; [|discriminate].
  intros [Hs Hc]%andb_true_iff. exists s, c. auto using in_unit_mag.
Qed.

Lemma rot_mag `{MathLib} (x y z ax ay az : float) :
  mag_le 3 x = true -> mag_le 3 y = true -> mag_le 3 z = true ->
  trig_in_unit ax = true -> trig_in_unit ay = true -> trig_in_unit az = true ->
  exists x' y' z', _rot x y z ax ay az = Some (x', y', z') /\
    mag_le 15 x' = true /\ mag_le 15 y' = true.
Proof.
  intros Hx Hy Hz Hax Hay Haz.
  apply trig_in_unit_mag in Hax as (sx & cx & Hsx & Hcx & Hmsx & Hmcx).
  apply trig_in_unit_mag in Hay as (sy & cy & Hsy & Hcy & Hmsy & Hmcy).
  apply trig_in_unit_mag in Haz as (sz & cz & Hsz & Hcz & Hmsz & Hmcz).
  unfold _rot. rewrite Hsx, Hcx. cbn. rewrite Hsy, Hcy. cbn. rewrite Hsz, Hcz. cbn.
  eexists _, _, _. split; [reflexivity|]. split; mag_bound.
Qed.

Lemma project_mag (x y z : float) :
  mag_le 15 x = true -> mag_le 15 y = true -> vec2_mag_le 20 (_project x y z) = true.
Proof.
  intros Hx Hy. unfold vec2_mag_le, _project. cbn [fst snd].
  change (COLS_f / 2)%float with 21%float. change (ROWS_f / 2)%float with 8.5%float.
  assert (Hc : mag_le 5 21 = true) by reflexivity.
  assert (Hr : mag_le 4 8.5 = true) by reflexivity.
  assert (Ha : mag_le 2 ASPECT = true) by reflexivity.
  apply andb_true_iff. split; mag_bound.
Qed.

(** Every cube corner converts to floats and scales to a point within
    [2^3] of the origin. *)
Lemma scaled_vertex_mag (v : Z * Z * Z) :
  v ∈ _VERTS ->
  exists fx fy fz,
    float_of_int v.1.1 = Some fx /\ float_of_int v.1.2 = Some fy /\
    float_of_int v.2 = Some fz /\
    mag_le 3 (fx * SCALE) = true /\ mag_le 3 (fy * SCALE) = true /\
    mag_le 3 (fz * SCALE) = true.
Proof.
  unfold _VERTS. intros Hv.
  repeat (apply elem_of_cons in Hv as [-> | Hv]); [..|inversion Hv];
    eexists _, _, _; repeat split; reflexivity.
Qed.

Lemma transform_ok `{MathLib} (ax ay az : float) :
  trig_in_unit ax = true -> trig_in_unit ay = true -> trig_in_unit az = true ->
  exists verts_3d verts_2d,
    for_each (transform_step ax ay az) _VERTS ([], []) = Some (verts_3d, verts_2d) /\
    length verts_3d = 8%nat /\ length verts_2d = 8%nat /\
    Forall (fun p => vec2_mag_le 20 p = true) verts_2d.
Proof.
  intros Hax Hay Haz.
  destruct (for_each_inv (transform_step ax ay az)
              (fun n acc => length acc.1 = n /\ length acc.2 = n /\
                            Forall (fun p => vec2_mag_le 20 p = true) acc.2)
              _VERTS ([], [])) as ([v3 v2] & Hrun & Hl3 & Hl2 & Hmag).
  - cbn. auto.
  - intros n [v3 v2] [[vx vy] vz] Hv (Hl3 & Hl2 & Hmag). cbn [fst snd] in *.
    apply list_elem_of_lookup_2 in Hv.
    destruct (scaled_vertex_mag _ Hv) as (fx & fy & fz & Hfx & Hfy & Hfz & Hmx & Hmy & Hmz).
    cbn [fst snd] in *. unfold transform_step. rewrite Hfx, Hfy, Hfz. cbn.
    destruct (rot_mag (fx * SCALE) (fy * SCALE) (fz * SCALE) ax ay az)
      as (x & y & z & -> & Hx & Hy); try assumption.
    cbn. eexists. split; [reflexivity|]. cbn [fst snd].
    rewrite !length_app. cbn. repeat split; try lia.
    apply Forall_app. split; [exact Hmag|]. constructor; [|constructor].
    now apply project_mag.
  - exists v3, v2. cbn [fst snd] in *. auto.
Qed.

(** *** Rasterising *)

Lemma edge_step_ok (verts_2d : list vec2) (visible_edges : gset edge)
    (cv : canvas) (e : edge) :
  canvas_ok cv -> length verts_2d = 8%nat ->
  Forall (fun p => vec2_mag_le 20 p = true) verts_2d -> e ∈ _EDGES ->
  exists cv', edge_step verts_2d visible_edges cv e = Some cv' /\ canvas_ok cv'.
Proof.
  intros Hcv Hlen Hmag He. unfold edge_step.
  destruct (edge_selected visible_edges e); [|eauto].
  destruct e as [i0 i1].
  assert (Hi : (i0 < 8 /\ i1 < 8)%nat).
  { unfold _EDGES in He.
    repeat (apply elem_of_cons in He as [[= -> ->] | He]); [..|inversion He]; lia. }
  destruct (lookup_lt_is_Some_2 verts_2d i0) as [[c0 r0] H0]; [lia|].
  destruct (lookup_lt_is_Some_2 verts_2d i1) as [[c1 r1] H1]; [lia|].
  rewrite H0, H1. cbn.
  pose proof (proj1 (Forall_lookup _ _) Hmag _ _ H0) as [? ?]%andb_true_iff.
  pose proof (proj1 (Forall_lookup _ _) Hmag _ _ H1) as [? ?]%andb_true_iff.
  now apply draw_line_ok.
Qed.

Lemma rasterize_ok (verts_3d : list vec3) (verts_2d : list vec2) :
  length verts_3d = 8%nat -> length verts_2d = 8%nat ->
  Forall (fun p => vec2_mag_le 20 p = true) verts_2d ->
  exists cv, rasterize verts_3d verts_2d = Some (join_rows cv) /\ canvas_ok cv.
Proof.
  intros H3 H2 Hmag. unfold rasterize.
  destruct (visible_edge_set_spec verts_3d H3) as (ve & -> & _). cbn [mbind option_bind].
  destruct (for_each_inv (edge_step verts_2d ve) (fun _ cv => canvas_ok cv)
              _EDGES blank_canvas) as (cv1 & -> & Hcv1).
  { apply blank_canvas_ok. }
  { intros n cv e He Hcv. apply list_elem_of_lookup_2 in He. now apply edge_step_ok. }
  cbn [mbind option_bind].
  destruct (for_each_inv vertex_step (fun _ cv => canvas_ok cv) verts_2d cv1)
    as (cv2 & -> & Hcv2).
  { exact Hcv1. }
  { intros n cv p Hp Hcv. apply vertex_step_ok; [exact Hcv|].
    eapply (proj1 (Forall_lookup _ _) Hmag); eassumption. }
  cbn [mbind option_bind]. eauto.
Qed.

Lemma render_at_ok `{MathLib} (ax ay az : float) :
  trig_in_unit ax = true -> trig_in_unit ay = true -> trig_in_unit az = true ->
  exists cv, render_at ax ay az = Some (join_rows cv) /\ canvas_ok cv.
Proof.
  intros Hax Hay Haz. unfold render_at.
  destruct (transform_ok ax ay az Hax Hay Haz) as (v3 & v2 & -> & H3 & H2 & Hmag). cbn.
  now apply rasterize_ok.
Qed.

(** A frame whose angles have sines and cosines within [[-1, 1]] is
    rendered, on a canvas of the right shape holding only glyphs. *)
Lemma render_frame_ok `{MathLib} (frame : Z) :
  frame_trig_ok frame = true ->
  exists cv, _render_frame frame = Some (join_rows cv) /\ canvas_ok cv.
Proof.
  unfold frame_trig_ok, _render_frame.
  destruct (frame_angles frame) as [[[ax ay] az]|]; [|discriminate].
  intros [[Hax Hay]%andb_true_iff Haz]%andb_true_iff. cbn.
  now apply render_at_ok.
Qed.

(** ** The text of a frame *)

Lemma split_lines_nonempty (s : string) : split_lines s <> [].
Proof.
  induction s as [|ch s IH]; cbn; [discriminate|].
  destruct (Ascii.eqb ch newline); [discriminate|].
  destruct (split_lines s); discriminate.
Qed.

Lemma append_empty (s : string) : EmptyString +:+ s = s.
Proof. reflexivity. Qed.

Lemma append_String (ch : ascii) (s t : string) : String ch s +:+ t = String ch (s +:+ t).
Proof. reflexivity. Qed.

Lemma split_lines_row (row : list ascii) (s : string) :
  Forall (fun ch => ch <> newline) row ->
  split_lines (string_of_list_ascii row +:+ String newline s) =
    string_of_list_ascii row :: split_lines s.
Proof.
  induction 1 as [|ch row Hch _ IH]; cbn [string_of_list_ascii].
  - rewrite append_empty. cbn [split_lines]. now rewrite Ascii.eqb_refl.
  - rewrite append_String. cbn [split_lines].
    now rewrite (proj2 (Ascii.eqb_neq ch newline) Hch), IH.
Qed.

Lemma split_lines_last_row (row : list ascii) :
  Forall (fun ch => ch <> newline) row ->
  split_lines (string_of_list_ascii row) = [string_of_list_ascii row].
Proof.
  induction 1 as [|ch row Hch _ IH]; cbn [string_of_list_ascii split_lines].
  - reflexivity.
  - now rewrite (proj2 (Ascii.eqb_neq ch newline) Hch), IH.
Qed.

(** Splitting the text of a canvas at the newlines gives back its rows. *)
Lemma split_lines_join_rows (cv : canvas) :
  cv <> [] -> Forall (Forall (fun ch => ch <> newline)) cv ->
  split_lines (join_rows cv) = map string_of_list_ascii cv.
Proof.
  intros Hne Hcv. induction Hcv as [|row rows Hrow Hrows IH]; [contradiction|].
  destruct rows as [|row2 rows].
  - cbn [join_rows map String.concat]. unfold join_rows. cbn [map String.concat].
    now apply split_lines_last_row.
  - unfold join_rows in *. cbn [map String.concat] in *.
    rewrite append_String, append_empty.
    rewrite split_lines_row by exact Hrow. f_equal. now apply IH.
Qed.

Lemma string_of_list_ascii_length (l : list ascii) :
  String.length (string_of_list_ascii l) = length l.
Proof. induction l as [|ch l IH]; cbn; congruence. Qed.

Lemma list_ascii_of_string_app (s t : string) :
  list_ascii_of_string (s +:+ t) = list_ascii_of_string s ++ list_ascii_of_string t.
Proof.
  induction s as [|ch s IH]; [reflexivity|].
  rewrite append_String. cbn [list_ascii_of_string]. now rewrite IH.
Qed.

Lemma glyph_not_newline (ch : ascii) : ch ∈ glyphs -> ch <> newline.
Proof.
  unfold glyphs. intros Hch.
  repeat (apply elem_of_cons in Hch as [-> | Hch]); [..|inversion Hch]; discriminate.
Qed.

Lemma glyphs_seven : NoDup glyphs /\ length glyphs = 7%nat.
Proof.
  split; [|reflexivity]. unfold glyphs.
  repeat (apply NoDup_cons; split;
          [rewrite ?elem_of_cons, elem_of_nil; intros H; repeat destruct H as [H|H];
           try discriminate; exact H|]).
  apply NoDup_nil_2.
Qed.

(** Every character of the text of a canvas holding glyphs is a glyph or
    a newline. *)
Lemma join_rows_chars (cv : canvas) :
  glyphs_only cv ->
  Forall (fun ch => ch ∈ glyphs \/ ch = newline) (list_ascii_of_string (join_rows cv)).
Proof.
  unfold glyphs_only, join_rows. induction 1 as [|row rows Hrow Hrows IH]; [constructor|].
  assert (Hr : Forall (fun ch => ch ∈ glyphs \/ ch = newline)
                 (list_ascii_of_string (string_of_list_ascii row))).
  { rewrite list_ascii_of_string_of_list_ascii. eapply Forall_impl; [exact Hrow|]. auto. }
  destruct rows as [|row2 rows]; [exact Hr|].
  cbn [map String.concat] in *.
  rewrite append_String, append_empty, list_ascii_of_string_app.
  apply Forall_app. split; [exact Hr|].
  cbn [list_ascii_of_string]. constructor; [now right|exact IH].
Qed.

(** C6: a frame of the loop is rendered as exactly 17 lines separated by
    newlines, each exactly 42 characters long. *)
Theorem frame_has_17_lines_of_42 `{MathLib} (i : Z) :
  0 <= i < NUM_FRAMES -> frame_trig_ok i = true ->
  exists text,
    _render_frame i = Some text /\
    length (split_lines text) = Z.to_nat ROWS /\
    Forall (fun line => String.length line = Z.to_nat COLS) (split_lines text).
Proof.
  intros _ Hok. destruct (render_frame_ok i Hok) as (cv & -> & [[Hrows Hcols] Hgl]).
  exists (join_rows cv). split; [reflexivity|].
  rewrite split_lines_join_rows.
  - split; [now rewrite length_map|].
    apply Forall_map. eapply Forall_impl; [exact Hcols|].
    intros row Hrow. cbn. now rewrite string_of_list_ascii_length.
  - intros ->. discriminate.
  - eapply Forall_impl; [exact Hgl|]. intros row Hrow.
    eapply Forall_impl; [exact Hrow|]. apply glyph_not_newline.
Qed.

Lemma frame_has_17_lines_of_42_witness :
  0 <= 0 < NUM_FRAMES /\ @frame_trig_ok taylor_math 0 = true /\
  exists text,
    @_render_frame taylor_math 0 = Some text /\
    length (split_lines text) = Z.to_nat ROWS /\
    Forall (fun line => String.length line = Z.to_nat COLS) (split_lines text).
Proof.
  split; [unfold NUM_FRAMES; lia|]. split; [reflexivity|].
  apply (@frame_has_17_lines_of_42 taylor_math 0); [unfold NUM_FRAMES; lia|reflexivity].
Defined.

(** C10: every character of a rendered frame is one of the seven glyphs
    (space, ["-"], ["|"], ["\"], ["/"], ["+"], ["o"]), the newlines between
    the rows apart. *)
Theorem frame_chars_are_glyphs `{MathLib} (i : Z) :
  0 <= i < NUM_FRAMES -> frame_trig_ok i = true ->
  exists text,
    _render_frame i = Some text /\
    Forall (fun line => Forall (fun ch => ch ∈ glyphs) (list_ascii_of_string line))
      (split_lines text) /\
    Forall (fun ch => ch ∈ glyphs \/ ch = newline) (list_ascii_of_string text) /\
    NoDup glyphs /\ length glyphs = 7%nat.
Proof.
  intros _ Hok. destruct (render_frame_ok i Hok) as (cv & -> & [[Hrows Hcols] Hgl]).
  exists (join_rows cv). split; [reflexivity|]. split; [|split].
  - rewrite split_lines_join_rows.
    + apply Forall_map. eapply Forall_impl; [exact Hgl|].
      intros row Hrow. cbn. now rewrite list_ascii_of_string_of_list_ascii.
    + intros ->. discriminate.
    + eapply Forall_impl; [exact Hgl|]. intros row Hrow.
      eapply Forall_impl; [exact Hrow|]. apply glyph_not_newline.
  - now apply join_rows_chars.
  - apply glyphs_seven.
Qed.

Lemma frame_chars_are_glyphs_witness :
  0 <= 35 < NUM_FRAMES /\ @frame_trig_ok taylor_math 35 = true /\
  exists text,
    @_render_frame taylor_math 35 = Some text /\
    Forall (fun ch => ch ∈ glyphs \/ ch = newline) (list_ascii_of_string text).
Proof.
  split; [unfold NUM_FRAMES; lia|]. split; [reflexivity|].
  destruct (@frame_chars_are_glyphs taylor_math 35) as (text & Ht & _ & Hch & _);
    [unfold NUM_FRAMES; lia|reflexivity|].
  exists text. split; assumption.
Defined.

(** ** The driver *)

Lemma append_inj_r (s t u : string) : s +:+ t = s +:+ u -> t = u.
Proof.
  induction s as [|ch s IH]; [auto|]. rewrite !append_String. intros [= H]. auto.
Qed.

Lemma frame_path_name (root : string) (f : Z) :
  frame_path root f = root +:+ "/" +:+ frame_name f.
Proof. reflexivity. Qed.

Lemma frame_path_inj (root : string) (f g : Z) :
  0 <= f <= NUM_FRAMES -> 0 <= g <= NUM_FRAMES ->
  frame_path root f = frame_path root g -> f = g.
Proof.
  intros Hf Hg Heq. rewrite !frame_path_name in Heq.
  apply append_inj_r, append_inj_r in Heq.
  assert (Hnd : NoDup (frame_name <$> seqZ 0 (NUM_FRAMES + 1))).
  { apply (bool_decide_unpack _). vm_compute. exact I. }
  assert (Hl : forall h, 0 <= h <= NUM_FRAMES ->
            (frame_name <$> seqZ 0 (NUM_FRAMES + 1)) !! Z.to_nat h = Some (frame_name h)).
  { intros h Hh. rewrite list_lookup_fmap, lookup_seqZ_lt by lia. cbn. f_equal. f_equal. lia. }
  pose proof (NoDup_lookup _ _ _ _ Hnd (Hl f Hf) (eq_ind _ (fun n => _ !! Z.to_nat g = Some n)
                (Hl g Hg) _ (eq_sym Heq))) as Hfg.
  lia.
Qed.

(** A run of insertions into a map. *)
Lemma foldl_insert_spec {A : Type} (k v : A -> string) (l : list A)
    (m0 : gmap string string) :
  (NoDup (k <$> l) -> forall x, x ∈ l ->
     foldl (fun m x => <[k x := v x]> m) m0 l !! k x = Some (v x)) /\
  (forall p, p ∉ (k <$> l) -> foldl (fun m x => <[k x := v x]> m) m0 l !! p = m0 !! p) /\
  dom (foldl (fun m x => <[k x := v x]> m) m0 l) = dom m0 ∪ list_to_set (k <$> l).
Proof.
  revert m0. induction l as [|y l IH]; intros m0; cbn [foldl fmap list_fmap].
  - split; [|split].
    + intros _ x Hx. inversion Hx.
    + reflexivity.
    + set_solver.
  - destruct (IH (<[k y := v y]> m0)) as (IH1 & IH2 & IH3). split; [|split].
    + intros [Hy Hnd]%NoDup_cons x [->|Hx]%elem_of_cons.
      * rewrite IH2 by exact Hy. apply lookup_insert_eq.
      * now apply IH1.
    + intros p [Hp1 Hp2]%not_elem_of_cons.
      rewrite IH2 by exact Hp2. now apply lookup_insert_ne.
    + rewrite IH3, dom_insert_L. set_solver.
Qed.

Lemma main_loop `{MathLib} (root : string) (l : list Z) (fs0 : gmap string string) :
  Forall (fun f => frame_trig_ok (f - 1) = true) l ->
  for_each (main_step root) l fs0 =
    Some (foldl (fun m f => <[frame_path root f := default EmptyString (_render_frame (f - 1))]> m)
            fs0 l).
Proof.
  intros Hl. revert fs0. induction Hl as [|f l Hf _ IH]; intros fs0; [reflexivity|].
  cbn [for_each foldl]. unfold main_step at 1.
  destruct (render_frame_ok (f - 1) Hf) as (cv & -> & _). cbn. apply IH.
Qed.

(** What [main] leaves behind: the 36 files [frame_1.txt] to
    [frame_36.txt], file [f] holding the frame of index [f - 1], and
    nothing else touched. *)
Lemma main_spec `{MathLib} (root : string) (fs0 : gmap string string) :
  all_frames_trig_ok = true ->
  exists fs,
    main root fs0 = Some fs /\
    (forall f, 1 <= f <= NUM_FRAMES ->
       is_Some (_render_frame (f - 1)) /\
       fs !! frame_path root f = _render_frame (f - 1)) /\
    (forall p, p ∉ (frame_path root <$> seqZ 1 NUM_FRAMES) -> fs !! p = fs0 !! p) /\
    dom fs = dom fs0 ∪ list_to_set (frame_path root <$> seqZ 1 NUM_FRAMES) /\
    NoDup (frame_path root <$> seqZ 1 NUM_FRAMES).
Proof.
  intros Hok. unfold all_frames_trig_ok in Hok. rewrite forallb_forall in Hok.
  assert (Hall : Forall (fun f => frame_trig_ok (f - 1) = true) (seqZ 1 NUM_FRAMES)).
  { apply Forall_seqZ. intros f Hf. apply Hok, list_elem_of_In, elem_of_seqZ. lia. }
  assert (Hnd : NoDup (frame_path root <$> seqZ 1 NUM_FRAMES)).
  { apply NoDup_fmap_2_strong; [|apply NoDup_seqZ].
    intros f g Hf%elem_of_seqZ Hg%elem_of_seqZ. apply frame_path_inj; lia. }
  unfold main. rewrite (main_loop root _ fs0 Hall).
  eexists. split; [reflexivity|].
  destruct (foldl_insert_spec (frame_path root)
              (fun f => default EmptyString (_render_frame (f - 1)))
              (seqZ 1 NUM_FRAMES) fs0) as (H1 & H2 & H3).
  split; [|split; [exact H2|split; [exact H3|exact Hnd]]].
  intros f Hf.
  assert (Hin : f ∈ seqZ 1 NUM_FRAMES) by (apply elem_of_seqZ; lia).
  destruct (render_frame_ok (f - 1)) as (cv & Hcv & _).
  { apply Hok, list_elem_of_In, elem_of_seqZ. lia. }
  split; [rewrite Hcv; eauto|].
  rewrite (H1 Hnd f Hin), Hcv. reflexivity.
Qed.

(** C7, as the code has it: the driver writes exactly [NUM_FRAMES] = 36
    files, one per frame index from 0 to [NUM_FRAMES - 1], and the frame of
    index [N] is persisted to the file tagged [N + 1]. *)
Theorem driver_writes_frame_N_to_file_N_plus_1 : driver_writes (fun N => N + 1).
Proof.
  intros M root Hok.
  destruct (main_spec root ∅ Hok) as (fs & Hfs & Hfiles & _ & Hdom & Hnd).
  exists fs. split; [exact Hfs|]. split.
  - rewrite <- size_dom, Hdom, dom_empty_L, (left_id_L ∅ (∪)).
    rewrite size_list_to_set by exact Hnd. now rewrite length_fmap, length_seqZ.
  - intros N HN. destruct (Hfiles (N + 1)) as [Hsome Hfile]; [lia|].
    replace (N + 1 - 1) with N in * by lia. auto.
Qed.

Lemma driver_writes_frame_N_to_file_N_plus_1_witness :
  @all_frames_trig_ok taylor_math = true /\
  exists fs : gmap string string,
    @main taylor_math "frames/default" ∅ = Some fs /\
    size fs = 36%nat /\
    fs !! "frames/default/frame_1.txt" = @_render_frame taylor_math 0.
Proof.
  split; [vm_compute; reflexivity|].
  destruct (driver_writes_frame_N_to_file_N_plus_1 taylor_math "frames/default")
    as (fs & Hfs & Hsize & Hfiles); [vm_compute; reflexivity|].
  exists fs. split; [exact Hfs|]. split; [exact Hsize|].
  apply (Hfiles 0). unfold NUM_FRAMES. lia.
Defined.

(** C7, as the specification has it (frame index [N] in the file tagged
    [N]), fails: no file is tagged 0. *)
Lemma driver_does_not_write_frame_N_to_file_N : ~ driver_writes (fun N => N).
Proof.
  intros Hclaim.
  destruct (Hclaim taylor_math "frames/default") as (fs & Hfs & _ & Hfiles);
    [vm_compute; reflexivity|].
  destruct (Hfiles 0) as [[text Htext] Hfile]; [unfold NUM_FRAMES; lia|].
  destruct (@main_spec taylor_math "frames/default" ∅) as (fs' & Hfs' & _ & Hother & _);
    [vm_compute; reflexivity|].
  assert (fs' = fs) as -> by congruence.
  assert (Hfresh : frame_path "frames/default" 0 ∉
                     (frame_path "frames/default" <$> seqZ 1 NUM_FRAMES))
    by (apply (bool_decide_unpack _); vm_compute; exact I).
  rewrite (Hother _ Hfresh), lookup_empty in Hfile. congruence.
Qed.

(** * Further properties of the code *)

(** ** The cube tables *)

(** X1: the static tables agree with each other: every edge of [_EDGES]
    is a side of exactly two faces of [_FACES]; every side of every face is
    an edge of [_EDGES] written one way or the other; no edge is listed
    twice or in both orientations; every index is one of the 8 vertices;
    and the entry of [_FACE_EDGES] at the position of a face holds the
    sides of that face, as unordered pairs. *)
Theorem cube_tables_consistent :
  (forall e, e ∈ _EDGES ->
     length (filter (fun f => Spec.on_boundary e f) _FACES) = 2%nat) /\
  (forall f s, f ∈ _FACES -> s ∈ Spec.boundary f ->
     s ∈ _EDGES \/ (s.2, s.1) ∈ _EDGES) /\
  (forall e e', e ∈ _EDGES -> e' ∈ _EDGES -> (e'.2, e'.1) <> e) /\
  NoDup _EDGES /\
  (forall f s, f ∈ _FACES -> s ∈ Spec.boundary f ->
     (s.1 < length _VERTS)%nat /\ (s.2 < length _VERTS)%nat) /\
  length _FACE_EDGES = length _FACES /\
  (forall fi f es e, _FACES !! fi = Some f -> _FACE_EDGES !! fi = Some es ->
     (e ∈ es \/ (e.2, e.1) ∈ es) <-> Spec.on_boundary e f).
Proof.
  split; [|split; [|split; [|split; [|split; [|split]]]]].
  - apply Forall_forall. apply (bool_decide_unpack _). vm_compute. exact I.
  - intros f s Hf Hs. revert s Hs. apply Forall_forall. revert f Hf. apply Forall_forall.
    apply (bool_decide_unpack _). vm_compute. exact I.
  - intros e e' He He'. revert e' He'. apply Forall_forall. revert e He. apply Forall_forall.
    apply (bool_decide_unpack _). vm_compute. exact I.
  - apply (bool_decide_unpack _). vm_compute. exact I.
  - intros f s Hf Hs. revert s Hs. apply Forall_forall. revert f Hf. apply Forall_forall.
    apply (bool_decide_unpack _). vm_compute. exact I.
  - reflexivity.
  - intros fi f es e. apply face_edges_are_boundaries.
Qed.

(** ** Looking up the vertices of a face *)

Lemma py_lookup_spec {A : Type} (l : list A) (i : Z) :
  (j ← py_index (length l) i; l !! j) =
  if decide (0 <= i < Z.of_nat (length l)) then l !! Z.to_nat i
  else if decide (- Z.of_nat (length l) <= i < 0) then l !! Z.to_nat (i + Z.of_nat (length l))
  else None.
Proof.
  unfold py_index.
  destruct (decide (0 <= i < Z.of_nat (length l))) as [Hi|Hi].
  - replace ((0 <=? i) && (i <? Z.of_nat (length l))) with true by (symmetry; lia).
    reflexivity.
  - replace ((0 <=? i) && (i <? Z.of_nat (length l))) with false by (symmetry; lia).
    destruct (decide (- Z.of_nat (length l) <= i < 0)) as [Hn|Hn].
    + replace ((- Z.of_nat (length l) <=? i) && (i <? 0)) with true by (symmetry; lia).
      reflexivity.
    + replace ((- Z.of_nat (length l) <=? i) && (i <? 0)) with false by (symmetry; lia).
      reflexivity.
Qed.

Lemma py_lookup_is_Some {A : Type} (l : list A) (i : Z) :
  is_Some (j ← py_index (length l) i; l !! j) <->
  - Z.of_nat (length l) <= i < Z.of_nat (length l).
Proof.
  rewrite py_lookup_spec. repeat case_decide; rewrite ?lookup_lt_is_Some.
  - lia.
  - lia.
  - split; [intros [? [=]]|lia].
Qed.

Lemma py_lookup_wrap {A : Type} (l : list A) (i : Z) :
  - Z.of_nat (length l) <= i < 0 ->
  (j ← py_index (length l) i; l !! j) =
  (j ← py_index (length l) (i + Z.of_nat (length l)); l !! j).
Proof.
  intros Hi. rewrite !py_lookup_spec. repeat case_decide; try lia. reflexivity.
Qed.

Lemma py_lookup_nat {A : Type} (l : list A) (i : nat) :
  (j ← py_index (length l) (Z.of_nat i); l !! j) = l !! i.
Proof.
  rewrite py_lookup_spec. repeat case_decide; try lia.
  - now rewrite Nat2Z.id.
  - symmetry. apply lookup_ge_None. lia.
Qed.

(** X2: [_face_visible], given a face of arbitrary [int] indices, raises
    an [IndexError] exactly when one of the first three indices lies
    outside [-len .. len - 1] for the vertex list; the fourth index is
    never looked up.  An index from [-len] to [-1] counts from the end of
    the list, and on indices that are not negative the function is the
    one used on the faces of [_FACES]. *)
Theorem face_visible_index_error (verts_3d : list vec3) (a b c d : Z) :
  let n := Z.of_nat (length verts_3d) in
  (_face_visible_int verts_3d (a, b, c, d) = None <->
     ~ (- n <= a < n) \/ ~ (- n <= b < n) \/ ~ (- n <= c < n)) /\
  (forall d', _face_visible_int verts_3d (a, b, c, d') =
              _face_visible_int verts_3d (a, b, c, d)) /\
  (- n <= a < 0 -> _face_visible_int verts_3d (a, b, c, d) =
                   _face_visible_int verts_3d (a + n, b, c, d)) /\
  (- n <= b < 0 -> _face_visible_int verts_3d (a, b, c, d) =
                   _face_visible_int verts_3d (a, b + n, c, d)) /\
  (- n <= c < 0 -> _face_visible_int verts_3d (a, b, c, d) =
                   _face_visible_int verts_3d (a, b, c + n, d)) /\
  (forall a' b' c' d' : nat,
     _face_visible_int verts_3d (Z.of_nat a', Z.of_nat b', Z.of_nat c', Z.of_nat d') =
     _face_visible verts_3d (a', b', c', d')).
Proof.
  intros n. unfold _face_visible_int, _face_visible. cbn beta iota.
  split; [|split; [reflexivity|split; [|split; [|split]]]].
  - pose proof (py_lookup_is_Some verts_3d a) as Ha.
    pose proof (py_lookup_is_Some verts_3d b) as Hb.
    pose proof (py_lookup_is_Some verts_3d c) as Hc. fold n in Ha, Hb, Hc.
    destruct (i ← py_index (length verts_3d) a; verts_3d !! i) as [[[ax ay] az]|];
      [|split; [intros _; left; intros Hin; apply Ha in Hin; destruct Hin as [? [=]]|reflexivity]].
    destruct (i ← py_index (length verts_3d) b; verts_3d !! i) as [[[bx by_] bz]|];
      [|split; [intros _; right; left; intros Hin; apply Hb in Hin; destruct Hin as [? [=]]|reflexivity]].
    destruct (i ← py_index (length verts_3d) c; verts_3d !! i) as [[[cx cy] cz]|];
      [|split; [intros _; right; right; intros Hin; apply Hc in Hin; destruct Hin as [? [=]]|reflexivity]].
    cbn. split; [discriminate|].
    assert (- n <= a < n) by (apply Ha; eauto).
    assert (- n <= b < n) by (apply Hb; eauto).
    assert (- n <= c < n) by (apply Hc; eauto). tauto.
  - intros Ha. now rewrite (py_lookup_wrap verts_3d a Ha).
  - intros Hb. now rewrite (py_lookup_wrap verts_3d b Hb).
  - intros Hc. now rewrite (py_lookup_wrap verts_3d c Hc).
  - intros a' b' c' d'. now rewrite !py_lookup_nat.
Qed.

Lemma face_visible_index_error_witness :
  _face_visible_int [(0, 0, 0); (1, 0, 0); (0, 1, 0)]%float (0, 1, -4, 0) = None /\
  _face_visible_int [(0, 0, 0); (1, 0, 0); (0, 1, 0)]%float (0, 1, -1, 0) =
  _face_visible_int [(0, 0, 0); (1, 0, 0); (0, 1, 0)]%float (0, 1, 2, 0).
Proof.
  pose proof (face_visible_index_error [(0, 0, 0); (1, 0, 0); (0, 1, 0)]%float 0 1 (-4) 0)
    as (Hraise & _).
  pose proof (face_visible_index_error [(0, 0, 0); (1, 0, 0); (0, 1, 0)]%float 0 1 (-1) 0)
    as (_ & _ & _ & _ & Hwrap & _).
  split.
  - apply Hraise. right. right. cbn. lia.
  - apply Hwrap. cbn. lia.
Defined.

(** ** The glyph of a direction *)

(** X3: the glyph depends only on the signs of the two deltas, it is the
    same for a direction and its opposite, and mirroring the column delta
    of a diagonal direction gives the other diagonal glyph: the two are
    ["\"] and ["/"], one each. *)
Theorem pick_char_signs (sc sr : Z) :
  pick_char sc sr = pick_char (Z.sgn sc) (Z.sgn sr) /\
  pick_char (- sc) (- sr) = pick_char sc sr /\
  (sc <> 0 -> sr <> 0 -> pick_char (- sc) sr <> pick_char sc sr) /\
  (sc <> 0 -> sr <> 0 ->
   (pick_char sc sr = "\"%char /\ pick_char (- sc) sr = "/"%char) \/
   (pick_char sc sr = "/"%char /\ pick_char (- sc) sr = "\"%char)).
Proof.
  unfold pick_char. split; [|split; [|split]].
  - destruct (Z.eqb_spec sr 0), (Z.eqb_spec (Z.sgn sr) 0); try lia; [reflexivity|].
    destruct (Z.eqb_spec sc 0), (Z.eqb_spec (Z.sgn sc) 0); try lia; [reflexivity|].
    destruct (Z.ltb_spec 0 sc), (Z.ltb_spec 0 sr), (Z.ltb_spec sc 0), (Z.ltb_spec sr 0),
      (Z.ltb_spec 0 (Z.sgn sc)), (Z.ltb_spec 0 (Z.sgn sr)),
      (Z.ltb_spec (Z.sgn sc) 0), (Z.ltb_spec (Z.sgn sr) 0); try lia; reflexivity.
  - destruct (Z.eqb_spec sr 0), (Z.eqb_spec (- sr) 0); try lia; [reflexivity|].
    destruct (Z.eqb_spec sc 0), (Z.eqb_spec (- sc) 0); try lia; [reflexivity|].
    destruct (Z.ltb_spec 0 sc), (Z.ltb_spec 0 sr), (Z.ltb_spec sc 0), (Z.ltb_spec sr 0),
      (Z.ltb_spec 0 (- sc)), (Z.ltb_spec 0 (- sr)),
      (Z.ltb_spec (- sc) 0), (Z.ltb_spec (- sr) 0); try lia; reflexivity.
  - intros Hc Hr.
    destruct (Z.eqb_spec sr 0); [lia|].
    destruct (Z.eqb_spec sc 0), (Z.eqb_spec (- sc) 0); try lia.
    destruct (Z.ltb_spec 0 sc), (Z.ltb_spec 0 sr), (Z.ltb_spec sc 0), (Z.ltb_spec sr 0),
      (Z.ltb_spec 0 (- sc)), (Z.ltb_spec (- sc) 0); try lia; cbn; discriminate.
  - intros Hc Hr.
    destruct (Z.eqb_spec sr 0); [lia|].
    destruct (Z.eqb_spec sc 0), (Z.eqb_spec (- sc) 0); try lia.
    destruct (Z.ltb_spec 0 sc), (Z.ltb_spec 0 sr), (Z.ltb_spec sc 0), (Z.ltb_spec sr 0),
      (Z.ltb_spec 0 (- sc)), (Z.ltb_spec (- sc) 0); try lia; cbn; auto.
Qed.

Lemma pick_char_signs_witness :
  pick_char (-3) 5 <> pick_char 3 5.
Proof. apply (pick_char_signs 3 5); lia. Defined.

(** ** Writing one cell *)

(** [canvas[r][c] = ch] with indices that are not negative: the
    dimensions stay, the addressed cell holds [ch], every other cell is as
    before. *)
Lemma set_cell_spec (cv cv' : canvas) (r c : Z) (ch : ascii) :
  0 <= r -> 0 <= c -> set_cell cv r c ch = Some cv' ->
  map length cv' = map length cv /\
  forall i j : nat,
    cell_at cv' i j =
      if decide (i = Z.to_nat r /\ j = Z.to_nat c) then Some ch else cell_at cv i j.
Proof.
  intros Hr Hc. unfold set_cell.
  destruct (py_index (length cv) r) as [ri|] eqn:Hri; [|discriminate]. cbn.
  apply py_index_nonneg in Hri as [-> Hri]; [|exact Hr].
  destruct (cv !! Z.to_nat r) as [row|] eqn:Hrow; [|discriminate]. cbn.
  destruct (py_index (length row) c) as [ci|] eqn:Hci; [|discriminate]. cbn.
  apply py_index_nonneg in Hci as [-> Hci]; [|exact Hc].
  intros [= <-]. split.
  - change (map length ?l) with (length <$> l).
    rewrite list_fmap_insert, length_insert. apply list_insert_id.
    now rewrite list_lookup_fmap, Hrow.
  - intros i j. unfold cell_at. case_decide as Hij.
    + destruct Hij as [-> ->]. rewrite list_lookup_insert_eq by lia. cbn.
      now apply list_lookup_insert_eq.
    + destruct (decide (i = Z.to_nat r)) as [->|Hi].
      * rewrite list_lookup_insert_eq, Hrow by lia. cbn.
        apply list_lookup_insert_ne. intros Heq. apply Hij. auto.
      * now rewrite list_lookup_insert_ne by auto.
Qed.

(** ** Canvases that differ by drawn glyphs *)

Lemma draws_refl (chs : list ascii) (cv : canvas) : draws chs cv cv.
Proof. split; [reflexivity|]. intros i j. now left. Qed.

Lemma draws_trans (chs : list ascii) (cv1 cv2 cv3 : canvas) :
  draws chs cv1 cv2 -> draws chs cv2 cv3 -> draws chs cv1 cv3.
Proof.
  intros [Hl12 H12] [Hl23 H23]. split; [congruence|].
  intros i j. destruct (H23 i j) as [H|H]; [|now right].
  rewrite H. apply H12.
Qed.

Lemma draws_mono (chs chs' : list ascii) (cv cv' : canvas) :
  chs ⊆ chs' -> draws chs cv cv' -> draws chs' cv cv'.
Proof.
  intros Hsub [Hl H]. split; [exact Hl|].
  intros i j. destruct (H i j) as [Heq|(Hin & ch & Hch & Hcell)]; [now left|right].
  split; [exact Hin|]. exists ch. auto.
Qed.

Lemma plot_draws (cv cv' : canvas) (p : Z * Z) (ch : ascii) :
  Spec.plot cv p ch = Some cv' -> draws [ch] cv cv'.
Proof.
  destruct p as [c r]. unfold Spec.plot.
  destruct (in_grid r c) eqn:Hin; [|intros [= <-]; apply draws_refl].
  pose proof (proj1 (in_grid_bounds r c) Hin) as [Hr Hc].
  intros Hset. apply set_cell_spec in Hset as [Hlen Hcell]; [|lia..].
  split; [exact Hlen|]. intros i j. rewrite Hcell.
  case_decide as Hij; [right|now left].
  destruct Hij as [-> ->]. rewrite !Z2Nat.id by lia.
  split; [exact Hin|]. exists ch. split; [set_solver|reflexivity].
Qed.

(** A loop whose every turn stays within a reflexive and transitive
    relation stays within it as a whole. *)
Lemma for_each_related {St A : Type} (body : St -> A -> option St)
    (R : St -> St -> Prop) (P : A -> Prop) (xs : list A) (s s' : St) :
  (forall s, R s s) -> (forall s1 s2 s3, R s1 s2 -> R s2 s3 -> R s1 s3) ->
  (forall s x s', P x -> body s x = Some s' -> R s s') ->
  Forall P xs -> for_each body xs s = Some s' -> R s s'.
Proof.
  intros Hrefl Htrans Hstep Hxs. revert s.
  induction Hxs as [|x xs Hx _ IH]; intros s; cbn [for_each].
  - intros [= <-]. apply Hrefl.
  - destruct (body s x) as [s1|] eqn:Hs1; [|discriminate].
    intros Hrun. eapply Htrans; [eapply Hstep; eassumption|now apply IH].
Qed.

Lemma glyph_is_line_glyph (sc sr : Z) : Spec.glyph sc sr ∈ line_glyphs.
Proof. unfold Spec.glyph, line_glyphs. repeat case_decide; set_solver. Qed.

Lemma line_step_draws (c0 r0 c1 r1 : float) (ic0 ir0 ic1 ir1 steps : Z)
    (st st' : line_state) (i : Z) :
  line_step c0 r0 c1 r1 ic0 ir0 ic1 ir1 steps st i = Some st' ->
  draws line_glyphs st.1.1 st'.1.1.
Proof.
  destruct st as [[cv pc] pr].
  pose proof (line_step_sample c0 r0 c1 r1 ic0 ir0 ic1 ir1 steps cv (pc, pr) i) as Hs.
  cbn [fst snd] in Hs |- *. rewrite Hs. clear Hs.
  destruct (Spec.sample c0 r0 c1 r1 steps i) as [p|]; [|discriminate]. cbn -[Spec.plot].
  destruct (Spec.plot cv p _) as [cv1|] eqn:Hplot; [|discriminate]. cbn.
  intros [= <-]. cbn [fst]. apply plot_draws in Hplot.
  eapply draws_mono; [|exact Hplot].
  intros ch ->%list_elem_of_singleton. apply glyph_is_line_glyph.
Qed.

(** The two ways [_draw_line] ends: a single ["+"] at the rounded start
    when both ends round to the same cell, line glyphs otherwise. *)
Lemma draw_line_cases (cv cv' : canvas) (c0 r0 c1 r1 : float) :
  _draw_line cv c0 r0 c1 r1 = Some cv' ->
  exists ic0 ir0 ic1 ir1,
    py_round c0 = Some ic0 /\ py_round r0 = Some ir0 /\
    py_round c1 = Some ic1 /\ py_round r1 = Some ir1 /\
    ((ic0 = ic1 /\ ir0 = ir1 /\ Spec.plot cv (ic0, ir0) "+"%char = Some cv') \/
     ((ic0 <> ic1 \/ ir0 <> ir1) /\ draws line_glyphs cv cv')).
Proof.
  unfold _draw_line.
  destruct (py_round c0) as [ic0|]; [|discriminate]. cbn.
  destruct (py_round r0) as [ir0|]; [|discriminate]. cbn.
  destruct (py_round c1) as [ic1|]; [|discriminate]. cbn.
  destruct (py_round r1) as [ir1|]; [|discriminate]. cbn.
  set (steps := Z.max (Z.abs (ic1 - ic0)) (Z.abs (ir1 - ir0))).
  intros Hrun. exists ic0, ir0, ic1, ir1. repeat split.
  destruct (Z.eqb_spec steps 0) as [Hz|Hnz].
  - left. repeat split; try lia. exact Hrun.
  - right. split; [lia|].
    destruct (for_each _ _ _) as [st|] eqn:Hloop; [|discriminate].
    cbn in Hrun. injection Hrun as <-.
    apply (for_each_related _ (fun s s' => draws line_glyphs s.1.1 s'.1.1) (fun _ => True))
      in Hloop; [exact Hloop|..].
    + intros s. apply draws_refl.
    + intros s1 s2 s3. apply draws_trans.
    + intros s x s' _. apply line_step_draws.
    + apply Forall_true. auto.
Qed.

Lemma draw_line_draws (cv cv' : canvas) (c0 r0 c1 r1 : float) :
  _draw_line cv c0 r0 c1 r1 = Some cv' ->
  draws ("+"%char :: line_glyphs) cv cv'.
Proof.
  intros Hrun.
  destruct (draw_line_cases cv cv' c0 r0 c1 r1 Hrun)
    as (ic0 & ir0 & ic1 & ir1 & _ & _ & _ & _ & [(_ & _ & Hplot)|[_ Hd]]).
  - apply plot_draws in Hplot. eapply draws_mono; [|exact Hplot]. set_solver.
  - eapply draws_mono; [|exact Hd]. set_solver.
Qed.

(** X4: on a canvas of at most [ROWS] rows, of any row lengths and
    contents, [_draw_line] keeps the canvas dimensions, changes cells of the
    [ROWS] by [COLS] window only, and leaves in a changed cell one of ["-"],
    ["|"], ["\"], ["/"], ["+"].  (Rows past the window are left out of the
    statement: the write [canvas[r][c] = ch] changes a row object in place,
    so a row past the window that is the same object as a window row
    would change with it.) *)
Theorem draw_line_changes_window_cells_only (cv cv' : canvas) (c0 r0 c1 r1 : float) :
  (length cv <= Z.to_nat ROWS)%nat ->
  _draw_line cv c0 r0 c1 r1 = Some cv' ->
  draws ("+"%char :: line_glyphs) cv cv'.
Proof.
  intros _ Hrun.
  destruct (draw_line_cases cv cv' c0 r0 c1 r1 Hrun)
    as (ic0 & ir0 & ic1 & ir1 & _ & _ & _ & _ & [(_ & _ & Hplot)|[_ Hd]]).
  - apply plot_draws in Hplot. eapply draws_mono; [|exact Hplot]. set_solver.
  - eapply draws_mono; [|exact Hd]. set_solver.
Qed.

Lemma draw_line_changes_window_cells_only_witness :
  (length blank_canvas <= Z.to_nat ROWS)%nat /\
  exists cv', _draw_line blank_canvas 3.2 1.4 9.7 5.5 = Some cv' /\
              draws ("+"%char :: line_glyphs) blank_canvas cv'.
Proof.
  split; [vm_compute; lia|].
  eexists. split; [vm_compute; reflexivity|].
  apply (draw_line_changes_window_cells_only _ _ 3.2 1.4 9.7 5.5);
    [vm_compute; lia|vm_compute; reflexivity].
Defined.

(** ** A segment with both ends on one row *)

Lemma SFsub_diag_finite (s : bool) (m : positive) (e : Z) :
  SFsub prec emax (S754_finite s m e) (S754_finite s m e) = S754_zero false.
Proof.
  cbn [SFsub]. change (IntDef.Z.sub ?u ?v) with (u - v). now rewrite Z.sub_diag.
Qed.

(** Interpolating between a coordinate and itself gives it back, up to
    the sign of a zero, which rounding forgets. *)
Lemma same_coordinate_sample (r t : float) (ir : Z) :
  mag_le 2 t = true -> py_round r = Some ir ->
  py_round (r + t * (r - r)) = Some ir.
Proof.
  unfold mag_le, py_round. rewrite add_spec, mul_spec, sub_spec.
  unfold SF64add, SF64mul, SF64sub.
  intros Ht Hr.
  destruct (Prim2SF r) as [s|s| |s m e]; try discriminate.
  - destruct (Prim2SF t) as [st|st| |st mt et]; try discriminate;
      destruct s, st; exact Hr.
  - rewrite SFsub_diag_finite.
    destruct (Prim2SF t) as [st|st| |st mt et]; try discriminate; exact Hr.
Qed.

Lemma glyph_flat (sc : Z) : Spec.glyph sc 0 = "-"%char.
Proof. unfold Spec.glyph. now rewrite decide_True. Qed.

(** X5: a segment whose two ends have the same row coordinate and round
    to different columns is drawn with ["-"] only: every cell it changes
    holds ["-"]. *)
Theorem horizontal_segment_is_dashes (cv cv' : canvas) (c0 c1 r : float) :
  _draw_line cv c0 r c1 r = Some cv' ->
  py_round c0 <> py_round c1 ->
  draws ["-"%char] cv cv'.
Proof.
  unfold _draw_line.
  destruct (py_round c0) as [ic0|]; [|discriminate]. cbn.
  destruct (py_round r) as [ir|] eqn:Hr; [|discriminate]. cbn.
  destruct (py_round c1) as [ic1|]; [|discriminate]. cbn.
  set (steps := Z.max (Z.abs (ic1 - ic0)) (Z.abs (ir - ir))).
  intros Hrun Hne.
  assert (Hsteps : 0 < steps) by (assert (ic0 <> ic1) by congruence; lia).
  rewrite (proj2 (Z.eqb_neq steps 0)) in Hrun by lia.
  destruct (for_each _ _ _) as [st|] eqn:Hloop; [|discriminate].
  cbn in Hrun. injection Hrun as <-.
  apply (for_each_related _
           (fun s s' => s.2 = ir -> draws ["-"%char] s.1.1 s'.1.1 /\ s'.2 = ir)
           (fun i => 0 <= i <= steps)) in Hloop.
  - now apply Hloop.
  - intros s Hs. split; [apply draws_refl|exact Hs].
  - intros s1 s2 s3 H12 H23 Hs. destruct (H12 Hs) as [Hd12 Hs2].
    destruct (H23 Hs2) as [Hd23 Hs3]. split; [|exact Hs3].
    eapply draws_trans; eassumption.
  - intros [[cv1 pc] pr] i s' Hi Hstep Hpr. cbn [fst snd] in *. subst pr.
    pose proof (line_step_sample c0 r c1 r ic0 ir ic1 ir steps cv1 (pc, ir) i) as Hs.
    cbn [fst snd] in Hs. rewrite Hs in Hstep. clear Hs.
    unfold Spec.sample in Hstep.
    destruct (int_truediv_mag i steps Hi Hsteps) as (t & Ht & Hmag).
    rewrite Ht in Hstep. cbn -[Spec.plot] in Hstep.
    destruct (py_round (c0 + t * (c1 - c0))) as [c|]; [|discriminate].
    rewrite (same_coordinate_sample r t ir Hmag Hr) in Hstep. cbn -[Spec.plot] in Hstep.
    replace (Spec.glyph _ _) with "-"%char in Hstep.
    2:{ destruct (i =? 0); cbn; rewrite Z.sub_diag; now rewrite glyph_flat. }
    destruct (Spec.plot cv1 (c, ir) "-"%char) as [cv2|] eqn:Hplot; [|discriminate].
    cbn in Hstep. injection Hstep as <-. cbn [fst snd].
    split; [now apply plot_draws in Hplot|reflexivity].
  - apply Forall_seqZ. lia.
  - reflexivity.
Qed.

Lemma horizontal_segment_is_dashes_witness :
  exists cv', _draw_line blank_canvas 3.2 4.4 19.7 4.4 = Some cv' /\
              draws ["-"%char] blank_canvas cv'.
Proof.
  eexists. split; [vm_compute; reflexivity|].
  apply (horizontal_segment_is_dashes _ _ 3.2 19.7 4.4); [vm_compute; reflexivity|].
  vm_compute. discriminate.
Defined.

(** ** When a line can and cannot be drawn *)

Lemma truediv_zero (steps : Z) : 0 < steps -> int_truediv 0 steps = Some 0%float.
Proof.
  intros Hs. unfold int_truediv. destruct (Z.eqb_spec steps 0) as [|_]; [lia|].
  destruct steps as [|p|p]; try lia. reflexivity.
Qed.

Lemma zero_times_infinity (d : float) (s : bool) :
  Prim2SF d = S754_infinity s -> Prim2SF (0 * d) = S754_nan.
Proof. intros Hd. rewrite mul_spec, Hd. reflexivity. Qed.

Lemma add_nan (x y : float) : Prim2SF y = S754_nan -> py_round (x + y) = None.
Proof.
  intros Hy. unfold py_round. rewrite add_spec, Hy.
  now destruct (Prim2SF x) as [?|?| |? ? ?].
Qed.

(** X6: on a well-formed canvas and for endpoints below [2^20] in
    magnitude, [_draw_line] never raises: no sample falls outside what
    [round] and the row and column lookups accept.  The canvas stays
    well-formed, and differs from the one before only by line glyphs and
    ["+"] inside the window. *)
Theorem draw_line_never_raises (cv : canvas) (c0 r0 c1 r1 : float) :
  canvas_ok cv ->
  mag_le 20 c0 = true -> mag_le 20 r0 = true ->
  mag_le 20 c1 = true -> mag_le 20 r1 = true ->
  exists cv', _draw_line cv c0 r0 c1 r1 = Some cv' /\ canvas_ok cv' /\
              draws ("+"%char :: line_glyphs) cv cv'.
Proof.
  intros Hcv Hc0 Hr0 Hc1 Hr1.
  destruct (draw_line_ok cv c0 r0 c1 r1 Hcv Hc0 Hr0 Hc1 Hr1) as (cv' & Hrun & Hok).
  exists cv'. split; [exact Hrun|]. split; [exact Hok|].
  exact (draw_line_draws cv cv' c0 r0 c1 r1 Hrun).
Qed.

Lemma draw_line_never_raises_witness :
  exists cv', _draw_line blank_canvas 3.2 1.4 9.7 5.5 = Some cv' /\ canvas_ok cv' /\
              draws ("+"%char :: line_glyphs) blank_canvas cv'.
Proof.
  apply draw_line_never_raises; [apply blank_canvas_ok|reflexivity..].
Defined.

(** X7: finite endpoints are not enough: when the span [c1 - c0]
    overflows to an infinity, the first sample is [round] of a NaN and
    [_draw_line] raises, whatever the canvas. *)
Theorem draw_line_raises_on_overflowing_span (cv : canvas) (c0 r0 c1 r1 : float)
    (s : bool) :
  Prim2SF (c1 - c0) = S754_infinity s ->
  py_round c0 <> py_round c1 ->
  _draw_line cv c0 r0 c1 r1 = None.
Proof.
  intros Hspan Hne. unfold _draw_line.
  destruct (py_round c0) as [ic0|]; [|reflexivity]. cbn [mbind option_bind].
  destruct (py_round r0) as [ir0|]; [|reflexivity]. cbn [mbind option_bind].
  destruct (py_round c1) as [ic1|]; [|reflexivity]. cbn [mbind option_bind].
  destruct (py_round r1) as [ir1|]; [|reflexivity]. cbn [mbind option_bind].
  cbv zeta. set (steps := Z.max _ _).
  assert (Hsteps : 0 < steps) by (assert (ic0 <> ic1) by congruence; lia).
  destruct (Z.eqb_spec steps 0) as [|_]; [lia|].
  rewrite seqZ_cons by lia. cbn [for_each].
  unfold line_step. rewrite (truediv_zero steps Hsteps). cbn [mbind option_bind].
  rewrite (add_nan c0 _ (zero_times_infinity _ s Hspan)). reflexivity.
Qed.

Lemma draw_line_raises_on_overflowing_span_witness :
  is_Some (py_round 1e308) /\ is_Some (py_round (-1e308)) /\
  _draw_line blank_canvas 1e308 0 (-1e308) 0 = None.
Proof.
  split; [vm_compute; eauto|]. split; [vm_compute; eauto|].
  apply (draw_line_raises_on_overflowing_span _ _ _ _ _ true).
  - vm_compute. reflexivity.
  - vm_compute. discriminate.
Defined.

(** ** Vertex markers *)

Lemma for_each_app {St A : Type} (body : St -> A -> option St) (l1 l2 : list A) (s : St) :
  for_each body (l1 ++ l2) s = for_each body l1 s ≫= for_each body l2.
Proof.
  revert s. induction l1 as [|x l1 IH]; intros s; cbn [for_each app]; [reflexivity|].
  destruct (body s x); [apply IH|reflexivity].
Qed.

Lemma for_each_keeps {St A : Type} (body : St -> A -> option St) (I : St -> Prop)
    (xs : list A) (s s' : St) :
  (forall s x s', x ∈ xs -> I s -> body s x = Some s' -> I s') ->
  I s -> for_each body xs s = Some s' -> I s'.
Proof.
  revert s. induction xs as [|x xs IH]; intros s Hstep Hs; cbn [for_each].
  - now intros [= <-].
  - destruct (body s x) as [s1|] eqn:Hs1; [|discriminate].
    apply IH; [|eapply Hstep; [left|exact Hs|exact Hs1]].
    intros s2 y s3 Hy. apply Hstep. now right.
Qed.

(** Plotting at (column, row): the cell written, if any, is the one
    addressed. *)
Lemma plot_spec (cv cv' : canvas) (c r : Z) (ch : ascii) :
  Spec.plot cv (c, r) ch = Some cv' ->
  (in_grid r c = true ->
     0 <= r /\ 0 <= c /\ cell_at cv' (Z.to_nat r) (Z.to_nat c) = Some ch) /\
  forall i j : nat,
    cell_at cv' i j = cell_at cv i j \/
    (in_grid r c = true /\ Z.of_nat i = r /\ Z.of_nat j = c /\ cell_at cv' i j = Some ch).
Proof.
  unfold Spec.plot. destruct (in_grid r c) eqn:Hin.
  - pose proof (proj1 (in_grid_bounds r c) Hin) as [Hr Hc].
    intros Hset. apply set_cell_spec in Hset as [_ Hcell]; [|lia..]. split.
    + intros _. repeat split; try lia. rewrite Hcell. now rewrite decide_True.
    + intros i j. rewrite Hcell. case_decide as Hij; [right|now left].
      destruct Hij as [-> ->]. rewrite !Z2Nat.id by lia. auto.
  - intros [= <-]. split; [discriminate|]. intros i j. now left.
Qed.

Lemma vertex_step_plot (cv : canvas) (p : vec2) :
  vertex_step cv p =
    c ← py_round p.1; r ← py_round p.2; Spec.plot cv (c, r) "o"%char.
Proof. destruct p as [sc sr]. reflexivity. Qed.

Lemma vertex_step_keeps_marker (cv cv' : canvas) (p : vec2) (i j : nat) :
  vertex_step cv p = Some cv' ->
  cell_at cv i j = Some "o"%char -> cell_at cv' i j = Some "o"%char.
Proof.
  rewrite vertex_step_plot.
  destruct (py_round p.1) as [c|]; [|discriminate]. cbn -[Spec.plot].
  destruct (py_round p.2) as [r|]; [|discriminate]. cbn -[Spec.plot].
  intros Hplot Hold. apply plot_spec in Hplot as [_ Hcells].
  destruct (Hcells i j) as [->|(_ & _ & _ & ->)]; [exact Hold|reflexivity].
Qed.

Lemma vertex_loop_marks (verts_2d : list vec2) (cv cv' : canvas) :
  for_each vertex_step verts_2d cv = Some cv' ->
  forall (p : vec2) (c r : Z),
    p ∈ verts_2d -> py_round p.1 = Some c -> py_round p.2 = Some r ->
    in_grid r c = true ->
    cell_at cv' (Z.to_nat r) (Z.to_nat c) = Some "o"%char.
Proof.
  intros Hrun p c r Hp Hc Hr Hin.
  apply list_elem_of_split in Hp as (l1 & l2 & ->).
  rewrite for_each_app in Hrun.
  destruct (for_each vertex_step l1 cv) as [cv1|]; [|discriminate].
  cbn [mbind option_bind for_each] in Hrun.
  destruct (vertex_step cv1 p) as [cv2|] eqn:Hstep; [|discriminate].
  apply (for_each_keeps _ (fun cv => cell_at cv (Z.to_nat r) (Z.to_nat c) = Some "o"%char))
    in Hrun; [exact Hrun|..].
  - intros s x s' _ Hs Hx. eapply vertex_step_keeps_marker; eassumption.
  - rewrite vertex_step_plot, Hc, Hr in Hstep. cbn -[Spec.plot] in Hstep.
    apply plot_spec in Hstep as [Hcell _]. now apply Hcell.
Qed.

(** X8: in a rendered frame every vertex that projects into the grid is
    marked ["o"], whatever edges cross its cell: the markers are drawn last
    and only markers are drawn after them. *)
Theorem vertices_marked_o `{MathLib} (frame : Z) (text : string) :
  _render_frame frame = Some text ->
  exists (verts_2d : list vec2) (cv : canvas),
    projected_vertices frame = Some verts_2d /\
    text = join_rows cv /\
    forall (p : vec2) (c r : Z),
      p ∈ verts_2d -> py_round p.1 = Some c -> py_round p.2 = Some r ->
      in_grid r c = true ->
      cell_at cv (Z.to_nat r) (Z.to_nat c) = Some "o"%char.
Proof.
  unfold _render_frame, projected_vertices, render_at.
  destruct (frame_angles frame) as [[[ax ay] az]|]; [|discriminate].
  cbn [mbind option_bind].
  destruct (for_each (transform_step ax ay az) _VERTS ([], [])) as [[v3 v2]|]; [|discriminate].
  cbn [mbind option_bind snd]. unfold rasterize.
  destruct (visible_edge_set v3) as [ve|]; [|discriminate]. cbn [mbind option_bind].
  destruct (for_each (edge_step v2 ve) _EDGES blank_canvas) as [cv1|]; [|discriminate].
  cbn [mbind option_bind].
  destruct (for_each vertex_step v2 cv1) as [cv2|] eqn:Hloop; [|discriminate].
  cbn [mbind option_bind]. intros [= <-].
  exists v2, cv2. split; [reflexivity|]. split; [reflexivity|].
  now apply vertex_loop_marks with (cv := cv1).
Qed.

Lemma vertices_marked_o_witness :
  exists (text : string) (verts_2d : list vec2) (cv : canvas),
    @_render_frame taylor_math 0 = Some text /\
    @projected_vertices taylor_math 0 = Some verts_2d /\
    text = join_rows cv.
Proof.
  destruct (@_render_frame taylor_math 0) as [text|] eqn:Htext;
    [|vm_compute in Htext; discriminate].
  destruct (@vertices_marked_o taylor_math 0 text Htext) as (v2 & cv & Hv & Ht & _).
  exists text, v2, cv. auto.
Defined.

(** ** No ["+"] survives *)

Lemma blank_canvas_cell (i j : nat) (ch : ascii) :
  cell_at blank_canvas i j = Some ch -> ch = " "%char.
Proof.
  unfold cell_at, blank_canvas. intros H.
  destruct (replicate _ _ !! i) as [row|] eqn:Hrow; [|discriminate].
  apply lookup_replicate in Hrow as [-> _]. cbn in H.
  now apply lookup_replicate in H as [-> _].
Qed.

Lemma draw_line_plus (cv cv' : canvas) (c0 r0 c1 r1 : float) (i j : nat) :
  _draw_line cv c0 r0 c1 r1 = Some cv' ->
  cell_at cv' i j = Some "+"%char ->
  cell_at cv i j = Some "+"%char \/
  (in_grid (Z.of_nat i) (Z.of_nat j) = true /\
   py_round c0 = Some (Z.of_nat j) /\ py_round r0 = Some (Z.of_nat i)).
Proof.
  intros Hrun Hplus.
  destruct (draw_line_cases cv cv' c0 r0 c1 r1 Hrun)
    as (ic0 & ir0 & ic1 & ir1 & Hc0 & Hr0 & _ & _ & [(_ & _ & Hplot)|[_ [_ Hd]]]).
  - apply plot_spec in Hplot as [_ Hcells].
    destruct (Hcells i j) as [Heq|(Hin & <- & <- & _)]; [left; congruence|right; auto].
  - destruct (Hd i j) as [Heq|(_ & ch & Hch & Hcell)]; [left; congruence|].
    exfalso. assert (ch = "+"%char) as -> by congruence.
    unfold line_glyphs in Hch.
    repeat (apply elem_of_cons in Hch as [Hch|Hch]; [discriminate|]). inversion Hch.
Qed.

Lemma edge_step_plus (verts_2d : list vec2) (ve : gset edge) (cv cv' : canvas) (e : edge) :
  plus_on_vertices verts_2d cv -> edge_step verts_2d ve cv e = Some cv' ->
  plus_on_vertices verts_2d cv'.
Proof.
  intros Hinv. unfold edge_step.
  destruct (edge_selected ve e); [|now intros [= <-]].
  destruct e as [i0 i1].
  destruct (verts_2d !! i0) as [[c0 r0]|] eqn:H0; [|discriminate]. cbn.
  destruct (verts_2d !! i1) as [[c1 r1]|] eqn:H1; [|discriminate]. cbn.
  intros Hrun i j Hplus.
  destruct (draw_line_plus cv cv' c0 r0 c1 r1 i j Hrun Hplus) as [Hold|(Hin & Hc & Hr)].
  - now apply Hinv.
  - split; [exact Hin|]. exists (c0, r0). split; [|auto].
    eapply list_elem_of_lookup_2; eassumption.
Qed.

(** The markers cover every ["+"]: after the vertex loop none is left. *)
Lemma vertex_loop_no_plus (verts_2d : list vec2) (cv cv' : canvas) :
  plus_on_vertices verts_2d cv ->
  for_each vertex_step verts_2d cv = Some cv' ->
  forall i j : nat, cell_at cv' i j <> Some "+"%char.
Proof.
  revert cv. induction verts_2d as [|p vs IH]; intros cv Hinv; cbn [for_each].
  - intros [= <-] i j Hplus. destruct (Hinv i j Hplus) as (_ & q & Hq & _). inversion Hq.
  - destruct (vertex_step cv p) as [cv1|] eqn:Hstep; [|discriminate].
    apply IH. intros i j Hplus.
    rewrite vertex_step_plot in Hstep.
    destruct (py_round p.1) as [c|] eqn:Hc; [|discriminate]. cbn -[Spec.plot] in Hstep.
    destruct (py_round p.2) as [r|] eqn:Hr; [|discriminate]. cbn -[Spec.plot] in Hstep.
    apply plot_spec in Hstep as [Hmark Hcells].
    destruct (Hcells i j) as [Heq|(_ & _ & _ & Ho)];
      [|rewrite Ho in Hplus; discriminate].
    destruct (Hinv i j) as (Hin & q & Hq & Hqc & Hqr); [congruence|].
    split; [exact Hin|]. exists q. split; [|auto].
    apply elem_of_cons in Hq as [->|Hq]; [|exact Hq]. exfalso.
    assert (c = Z.of_nat j) as -> by congruence.
    assert (r = Z.of_nat i) as -> by congruence.
    destruct (Hmark Hin) as (_ & _ & Ho). rewrite !Nat2Z.id in Ho.
    rewrite Ho in Hplus. discriminate.
Qed.

Lemma join_rows_char_cell (cv : canvas) (ch : ascii) :
  ch ∈ list_ascii_of_string (join_rows cv) ->
  ch = newline \/ exists i j, cell_at cv i j = Some ch.
Proof.
  unfold join_rows. induction cv as [|row rows IH]; [intros H; inversion H|].
  assert (Hrow : ch ∈ row -> exists i j, cell_at (row :: rows) i j = Some ch).
  { intros [j Hj]%list_elem_of_lookup_1. exists 0%nat, j. exact Hj. }
  assert (Hrest : (exists i j, cell_at rows i j = Some ch) ->
                  exists i j, cell_at (row :: rows) i j = Some ch).
  { intros (i & j & Hij). exists (S i), j. exact Hij. }
  destruct rows as [|row2 rows].
  - cbn [map String.concat]. rewrite list_ascii_of_string_of_list_ascii. auto.
  - cbn [map String.concat] in *.
    rewrite append_String, append_empty, list_ascii_of_string_app.
    rewrite list_ascii_of_string_of_list_ascii. cbn [list_ascii_of_string].
    intros [Hin|[->|Hin]%elem_of_cons]%elem_of_app; [auto|auto|].
    destruct (IH Hin) as [->|H]; auto.
Qed.

(** X9: no rendered frame contains ["+"].  The only ["+"] the line drawer
    writes is on the cell its start vertex rounds to, and that cell is
    marked ["o"] afterwards. *)
Theorem frame_has_no_plus `{MathLib} (frame : Z) (text : string) :
  _render_frame frame = Some text ->
  "+"%char ∉ list_ascii_of_string text.
Proof.
  unfold _render_frame, render_at.
  destruct (frame_angles frame) as [[[ax ay] az]|]; [|discriminate].
  cbn [mbind option_bind].
  destruct (for_each (transform_step ax ay az) _VERTS ([], [])) as [[v3 v2]|]; [|discriminate].
  cbn [mbind option_bind]. unfold rasterize.
  destruct (visible_edge_set v3) as [ve|]; [|discriminate]. cbn [mbind option_bind].
  destruct (for_each (edge_step v2 ve) _EDGES blank_canvas) as [cv1|] eqn:Hedges;
    [|discriminate].
  cbn [mbind option_bind].
  destruct (for_each vertex_step v2 cv1) as [cv2|] eqn:Hverts; [|discriminate].
  cbn [mbind option_bind]. intros [= <-] Hplus.
  apply join_rows_char_cell in Hplus as [Hnl|(i & j & Hcell)]; [discriminate|].
  revert Hcell. apply (vertex_loop_no_plus v2 cv1 cv2); [|exact Hverts].
  apply (for_each_keeps _ (plus_on_vertices v2)) in Hedges; [exact Hedges|..].
  - intros s e s' _. apply edge_step_plus.
  - intros i' j' Hb. apply blank_canvas_cell in Hb. discriminate.
Qed.

Lemma frame_has_no_plus_witness :
  exists text : string,
    @_render_frame taylor_math 0 = Some text /\
    "+"%char ∉ list_ascii_of_string text.
Proof.
  destruct (@_render_frame taylor_math 0) as [text|] eqn:Htext;
    [|vm_compute in Htext; discriminate].
  exists text. split; [reflexivity|].
  exact (@frame_has_no_plus taylor_math 0 text Htext).
Defined.

(** ** The size of a frame *)

Lemma append_length (s t : string) :
  String.length (s +:+ t) = (String.length s + String.length t)%nat.
Proof.
  induction s as [|ch s IH]; [reflexivity|].
  rewrite append_String. cbn [String.length]. now rewrite IH.
Qed.

Lemma join_rows_length (cv : canvas) :
  String.length (join_rows cv) = (sum_list (length <$> cv) + (length cv - 1))%nat.
Proof.
  unfold join_rows. induction cv as [|row rows IH]; [reflexivity|].
  destruct rows as [|row2 rows].
  - cbn. rewrite string_of_list_ascii_length. lia.
  - cbn [map String.concat] in *. rewrite append_length, append_String, append_empty.
    cbn [String.length]. rewrite IH, string_of_list_ascii_length. cbn. lia.
Qed.

Lemma vertex_step_draws (cv cv' : canvas) (p : vec2) :
  vertex_step cv p = Some cv' -> draws ["o"%char] cv cv'.
Proof.
  rewrite vertex_step_plot.
  destruct (py_round p.1) as [c|]; [|discriminate]. cbn -[Spec.plot].
  destruct (py_round p.2) as [r|]; [|discriminate]. cbn -[Spec.plot].
  apply plot_draws.
Qed.

Lemma edge_step_draws (verts_2d : list vec2) (ve : gset edge) (cv cv' : canvas) (e : edge) :
  edge_step verts_2d ve cv e = Some cv' -> draws ("+"%char :: line_glyphs) cv cv'.
Proof.
  unfold edge_step. destruct (edge_selected ve e); [|intros [= <-]; apply draws_refl].
  destruct e as [i0 i1].
  destruct (verts_2d !! i0) as [[c0 r0]|]; [|discriminate]. cbn.
  destruct (verts_2d !! i1) as [[c1 r1]|]; [|discriminate]. cbn.
  apply draw_line_draws.
Qed.

(** The canvas behind a rendered frame has [ROWS] rows of [COLS] cells. *)
Lemma render_canvas_shape `{MathLib} (frame : Z) (text : string) :
  _render_frame frame = Some text ->
  exists cv, text = join_rows cv /\
             length <$> cv = replicate (Z.to_nat ROWS) (Z.to_nat COLS).
Proof.
  unfold _render_frame, render_at.
  destruct (frame_angles frame) as [[[ax ay] az]|]; [|discriminate].
  cbn [mbind option_bind].
  destruct (for_each (transform_step ax ay az) _VERTS ([], [])) as [[v3 v2]|]; [|discriminate].
  cbn [mbind option_bind]. unfold rasterize.
  destruct (visible_edge_set v3) as [ve|]; [|discriminate]. cbn [mbind option_bind].
  destruct (for_each (edge_step v2 ve) _EDGES blank_canvas) as [cv1|] eqn:Hedges;
    [|discriminate].
  cbn [mbind option_bind].
  destruct (for_each vertex_step v2 cv1) as [cv2|] eqn:Hverts; [|discriminate].
  cbn [mbind option_bind]. intros [= <-]. exists cv2. split; [reflexivity|].
  apply (for_each_related _ (draws ("+"%char :: line_glyphs)) (fun _ => True)) in Hedges.
  - apply (for_each_related _ (draws ["o"%char]) (fun _ => True)) in Hverts.
    + destruct Hedges as [H1 _], Hverts as [H2 _].
      change (map length ?l) with (length <$> l) in H1, H2. rewrite H2, H1.
      unfold blank_canvas. rewrite fmap_replicate. now rewrite length_replicate.
    + apply draws_refl.
    + apply draws_trans.
    + intros s x s' _. apply vertex_step_draws.
    + now apply Forall_true.
  - apply draws_refl.
  - apply draws_trans.
  - intros s x s' _. apply edge_step_draws.
  - now apply Forall_true.
Qed.

(** X10: every frame that is rendered has exactly
    [ROWS * COLS + ROWS - 1] = 730 characters: 17 rows of 42 cells and the
    16 newlines between them, with none at the end. *)
Theorem frame_text_length `{MathLib} (frame : Z) (text : string) :
  _render_frame frame = Some text ->
  Z.of_nat (String.length text) = ROWS * COLS + (ROWS - 1) /\
  Z.of_nat (String.length text) = 730.
Proof.
  intros Hrun. destruct (render_canvas_shape frame text Hrun) as (cv & -> & Hshape).
  rewrite join_rows_length, <- (length_fmap length cv), Hshape.
  split; vm_compute; reflexivity.
Qed.

Lemma frame_text_length_witness :
  exists text, @_render_frame taylor_math 17 = Some text /\
               Z.of_nat (String.length text) = 730.
Proof.
  destruct (@_render_frame taylor_math 17) as [text|] eqn:Htext;
    [|vm_compute in Htext; discriminate].
  exists text. split; [reflexivity|].
  exact (proj2 (@frame_text_length taylor_math 17 text Htext)).
Defined.

(** ** From the text back to the canvas *)

(** X11: the text of a frame determines its canvas: two canvases with at
    least one row and no newline in a cell that join to the same text are
    equal.  (Some row is needed: no row and one empty row both give the
    empty text.) *)
Theorem join_rows_injective (cv1 cv2 : canvas) :
  cv1 <> [] -> cv2 <> [] ->
  Forall (Forall (fun ch => ch <> newline)) cv1 ->
  Forall (Forall (fun ch => ch <> newline)) cv2 ->
  join_rows cv1 = join_rows cv2 -> cv1 = cv2.
Proof.
  intros H1 H2 Hn1 Hn2 Heq.
  apply (f_equal split_lines) in Heq.
  rewrite (split_lines_join_rows cv1 H1 Hn1), (split_lines_join_rows cv2 H2 Hn2) in Heq.
  apply (f_equal (map list_ascii_of_string)) in Heq.
  rewrite !map_map in Heq.
  assert (Hid : forall rows : canvas,
             map (fun x => list_ascii_of_string (string_of_list_ascii x)) rows = rows).
  { intros rows. rewrite <- (map_id rows) at 2. apply map_ext.
    intros row. apply list_ascii_of_string_of_list_ascii. }
  now rewrite !Hid in Heq.
Qed.

Lemma join_rows_injective_witness :
  join_rows blank_canvas = join_rows (replicate 17 (replicate 42 " "%char)) /\
  blank_canvas = replicate 17 (replicate 42 " "%char).
Proof.
  assert (Hcells : Forall (Forall (fun ch => ch <> newline)) blank_canvas)
    by (apply (bool_decide_unpack _); vm_compute; exact I).
  split; [vm_compute; reflexivity|].
  apply (join_rows_injective blank_canvas (replicate 17 (replicate 42 " "%char)));
    [discriminate|discriminate|exact Hcells|exact Hcells|vm_compute; reflexivity].
Defined.

(** ** File names *)

Lemma py_str_inj (f g : Z) : py_str f = py_str g -> f = g.
Proof.
  unfold py_str. intros Heq.
  assert (Hok : forall z, Z.to_int z <> Decimal.Pos Decimal.Nil /\
                          Z.to_int z <> Decimal.Neg Decimal.Nil).
  { intros [|p|p]; cbn; split; try discriminate; intros [= Hp];
      now apply DecimalPos.Unsigned.to_uint_nonnil in Hp. }
  apply DecimalZ.to_int_inj.
  destruct (Hok f) as [Hf1 Hf2], (Hok g) as [Hg1 Hg2].
  pose proof (NilZero.isi _ Hf1 Hf2) as Hf. pose proof (NilZero.isi _ Hg1 Hg2) as Hg.
  rewrite Heq in Hf. congruence.
Qed.

Lemma append_inj_l (s s' t : string) : s +:+ t = s' +:+ t -> s = s'.
Proof.
  revert s'. induction s as [|ch s IH]; intros [|ch' s'] Heq.
  - reflexivity.
  - apply (f_equal String.length) in Heq. rewrite !append_length in Heq.
    cbn [String.length] in Heq. lia.
  - apply (f_equal String.length) in Heq. rewrite !append_length in Heq.
    cbn [String.length] in Heq. lia.
  - rewrite !append_String in Heq. injection Heq as -> Heq. f_equal. now apply IH.
Qed.

Lemma frame_path_eq (root : string) (f g : Z) :
  frame_path root f = frame_path root g -> f = g.
Proof.
  unfold frame_path. intros Heq. do 3 apply append_inj_r in Heq.
  now apply append_inj_l, py_str_inj in Heq.
Qed.


(** ** Running the driver on any directory *)

Lemma main_loop_success `{MathLib} (root : string) (l : list Z)
    (fs fs' : gmap string string) :
  for_each (main_step root) l fs = Some fs' ->
  Forall (fun f => is_Some (_render_frame (f - 1))) l /\
  fs' = foldl (fun m f => <[frame_path root f := default EmptyString (_render_frame (f - 1))]> m)
          fs l.
Proof.
  revert fs. induction l as [|f l IH]; intros fs; cbn [for_each foldl].
  - intros [= <-]. split; [constructor|reflexivity].
  - unfold main_step at 1.
    destruct (_render_frame (f - 1)) as [text|] eqn:Htext; [|discriminate].
    cbn [mbind option_bind]. intros Hrun. apply IH in Hrun as [Hall ->].
    split; [|reflexivity]. constructor; [eauto|exact Hall].
Qed.

Lemma main_loop_run `{MathLib} (root : string) (l : list Z) (fs : gmap string string) :
  Forall (fun f => is_Some (_render_frame (f - 1))) l ->
  for_each (main_step root) l fs =
    Some (foldl (fun m f => <[frame_path root f := default EmptyString (_render_frame (f - 1))]> m)
            fs l).
Proof.
  intros Hl. revert fs. induction Hl as [|f l [text Hf] _ IH]; intros fs; [reflexivity|].
  cbn [for_each foldl]. unfold main_step at 1. rewrite Hf. cbn. apply IH.
Qed.

Lemma frame_paths_NoDup (root : string) (l : list Z) :
  NoDup l -> NoDup (frame_path root <$> l).
Proof.
  intros Hl. apply NoDup_fmap_2; [|exact Hl].
  intros f g. apply frame_path_eq.
Qed.

Lemma main_result `{MathLib} (root : string) (fs fs' : gmap string string) :
  main root fs = Some fs' ->
  fs' = frame_files root fs /\
  Forall (fun f => is_Some (_render_frame (f - 1))) (seqZ 1 NUM_FRAMES).
Proof.
  unfold main, frame_files. intros Hrun. apply main_loop_success in Hrun as [Hall ->]. auto.
Qed.



(** X14: [main] is idempotent: a second run on the directory the first
    run left changes nothing. *)
Theorem main_idempotent `{MathLib} (root : string) (fs fs' : gmap string string) :
  main root fs = Some fs' -> main root fs' = Some fs'.
Proof.
  intros Hrun. apply main_result in Hrun as [-> Hall].
  unfold main. rewrite (main_loop_run root _ _ Hall). f_equal.
  fold (frame_files root (frame_files root fs)).
  apply map_eq. intros p. unfold frame_files.
  pose proof (frame_paths_NoDup root _ (NoDup_seqZ 1 NUM_FRAMES)) as Hnd.
  set (v := fun f => default EmptyString (_render_frame (f - 1))).
  destruct (foldl_insert_spec (frame_path root) v (seqZ 1 NUM_FRAMES) fs) as (H1 & H2 & _).
  destruct (foldl_insert_spec (frame_path root) v (seqZ 1 NUM_FRAMES)
              (foldl (fun m f => <[frame_path root f := v f]> m) fs (seqZ 1 NUM_FRAMES)))
    as (H1' & H2' & _).
  destruct (decide (p ∈ frame_path root <$> seqZ 1 NUM_FRAMES)) as [Hp|Hp].
  - apply list_elem_of_fmap in Hp as (f & -> & Hf).
    etransitivity; [exact (H1' Hnd f Hf)|symmetry; exact (H1 Hnd f Hf)].
  - exact (H2' p Hp).
Qed.

Lemma main_idempotent_witness :
  exists fs' : gmap string string,
    @main taylor_math "out" ∅ = Some fs' /\ @main taylor_math "out" fs' = Some fs'.
Proof.
  destruct (@main_spec taylor_math "out" ∅) as (fs' & Hrun & _); [vm_compute; reflexivity|].
  exists fs'. split; [exact Hrun|].
  exact (@main_idempotent taylor_math "out" ∅ fs' Hrun).
Defined.
